(** * BestPick: similarity grouping, quality scoring and the selection store

    A shallow embedding of [src/utils/imageAnalysis.ts] (quality scorer and
    [groupSimilarPhotos]) and of the reducer, the ingest step of [addPhotos]
    and [downloadSelected] of [src/context/PhotoContext.tsx], followed by the
    properties of the specification that were checked on it and by further
    properties of the code.

    Conventions of the embedding:
    - a JavaScript [Date] is its [getTime()] value, an integer ([Z]);
    - in the grouper a similarity is only compared and minimised, which is
      exact on numbers, and is carried as a rational ([Q]); in the scorer,
      which computes with them, numbers are IEEE 754 binary64 values;
      [cos_sim] comes from an external package and is a parameter;
    - [new Date()] inside the reducer is the extra argument [now];
    - a [TypeError] raised by reading a property of [undefined] is [None]. *)

From Stdlib Require Import ZArith QArith Qround Qminmax Lia.
From Stdlib Require Import Floats.SpecFloat.
From stdpp Require Import base decidable option list sorting strings gmap sets.

Local Open Scope Z_scope.
Set Warnings "-clear-no-such-hyp".

(** ** Data model (the declarations of [src/types], read off their uses) *)

Module PhotoMetadata.
(** [width], [height] and [camera] are never read by the modelled code. *)
Record t : Type := mk { captureDate : option Z }.
End PhotoMetadata.

Module Photo.
(** [file], [url], [thumbnailUrl], [size] and [type] are payload that no
    modelled operation reads. *)
Record t : Type := mk {
  id : string;
  name : string;
  dateCreated : Z;
  selected : bool;
  quality : Z;
  metadata : PhotoMetadata.t;
  embedding : option (list Q)
}.

(** [{ ...photo, selected: b }] *)
Definition with_selected (b : bool) (p : t) : t :=
  mk (id p) (name p) (dateCreated p) b (quality p) (metadata p) (embedding p).
End Photo.

Module PhotoGroup.
(** [title] is a locale-formatted rendering of the top photo's date and is
    left out. *)
Record t : Type := mk {
  id : string;
  date : Z;
  photos : list Photo.t;
  similarity : Q;
  similarityThreshold : Q
}.
End PhotoGroup.

Module HistoryEntry.
Record t : Type := mk { selectedPhotos : list string; timestamp : Z }.
End HistoryEntry.

Module AppState.
Record t : Type := mk {
  photos : list Photo.t;
  groups : list PhotoGroup.t;
  selectedPhotos : list string;
  uniquePhotos : list Photo.t;
  history : list HistoryEntry.t;
  currentHistoryIndex : Z
}.
End AppState.

(** ** JavaScript array primitives used by the source *)

Section JsArray.
Context {A : Type}.

(** [Array.prototype.sort(compareFn)]: a stable sort; [a] stays in front of
    [b] exactly when [compareFn(a, b) <= 0]. *)
Fixpoint sort_insert (compareFn : A → A → Z) (x : A) (l : list A) : list A :=
  match l with
  | [] => [x]
  | y :: l' =>
      if compareFn x y <=? 0 then x :: y :: l'
      else y :: sort_insert compareFn x l'
  end.

Fixpoint js_sort (compareFn : A → A → Z) (l : list A) : list A :=
  match l with
  | [] => []
  | x :: l' => sort_insert compareFn x (js_sort compareFn l')
  end.

(** [arr.slice(0, end)]: a negative [end] counts from the back. *)
Definition js_slice0 (l : list A) (end_ : Z) : list A :=
  if end_ <? 0 then take (Z.to_nat (Z.max (Z.of_nat (length l) + end_) 0)) l
  else take (Z.to_nat end_) l.

(** [arr[i]]: [undefined] outside the array. *)
Definition js_index (l : list A) (i : Z) : option A :=
  if i <? 0 then None else l !! Z.to_nat i.
End JsArray.

(** [arr.includes(x)] on an array of strings *)
Definition includes (l : list string) (x : string) : bool :=
  bool_decide (x ∈ l).

(** [arr.indexOf(x)]: first position, or [-1] *)
Fixpoint indexOf (l : list string) (x : string) : Z :=
  match l with
  | [] => -1
  | y :: l' =>
      if bool_decide (y = x) then 0
      else let r := indexOf l' x in if r <? 0 then -1 else r + 1
  end.

(** [Array.from(new Set(l))]: first occurrences, in insertion order *)
Definition set_push (acc : list string) (x : string) : list string :=
  if includes acc x then acc else acc ++ [x].

Definition array_from_set (l : list string) : list string :=
  fold_left set_push l [].

(** ** Similarity grouper ([groupSimilarPhotos]) *)

(** [p.embedding && p.embedding.length > 0] *)
Definition has_embedding (p : Photo.t) : bool :=
  match Photo.embedding p with
  | Some e => bool_decide (0 < length e)%nat
  | None => false
  end.

Definition by_quality_desc (a b : Photo.t) : Z := Photo.quality b - Photo.quality a.
Definition by_dateCreated_desc (a b : Photo.t) : Z :=
  Photo.dateCreated b - Photo.dateCreated a.
Definition by_date_desc (a b : PhotoGroup.t) : Z :=
  PhotoGroup.date b - PhotoGroup.date a.

(** The object pushed onto [groups] for a candidate with more than one member. *)
Definition finalize_group (photoA : Photo.t) (currentGroupPhotos : list Photo.t)
    (minSimilarityInGroup similarityThreshold : Q) : PhotoGroup.t :=
  let sortedPhotos := js_sort by_quality_desc currentGroupPhotos in
  let top := hd photoA sortedPhotos in
  PhotoGroup.mk (Photo.id top +:+ "-group") (Photo.dateCreated top) sortedPhotos
    minSimilarityInGroup similarityThreshold.

(** Lines 236-240: photos without an embedding are appended unless their id is
    already there. *)
Definition push_unembedded (uniquePhotos : list Photo.t) (p : Photo.t) : list Photo.t :=
  if negb (has_embedding p)
     && negb (existsb (λ up, bool_decide (Photo.id up = Photo.id p)) uniquePhotos)
  then uniquePhotos ++ [p] else uniquePhotos.

Section Grouper.
(** [cos_sim] is called outside any [try] here: a call that throws aborts
    [groupSimilarPhotos] as a whole, so the grouper is modelled for calls that
    return. *)
Variable cos_sim : list Q → list Q → Q.
Variable similarityThreshold : Q.

(** The loop over [j] (lines 210-221), on the photos after [photoA]. *)
Fixpoint inner_loop (photoA : Photo.t) (rest : list Photo.t)
    (currentGroupPhotos : list Photo.t) (minSimilarityInGroup : Q)
    (processed : gset string) : list Photo.t * Q * gset string :=
  match rest with
  | [] => (currentGroupPhotos, minSimilarityInGroup, processed)
  | photoB :: rest' =>
      if bool_decide (Photo.id photoB ∈ processed)
      then inner_loop photoA rest' currentGroupPhotos minSimilarityInGroup processed
      else
        match Photo.embedding photoA, Photo.embedding photoB with
        | Some ea, Some eb =>
            let similarity := cos_sim ea eb in
            if Qle_bool similarityThreshold similarity
            then inner_loop photoA rest' (currentGroupPhotos ++ [photoB])
                   (Qmin minSimilarityInGroup similarity)
                   ({[Photo.id photoB]} ∪ processed)
            else inner_loop photoA rest' currentGroupPhotos
                   minSimilarityInGroup processed
        | _, _ => inner_loop photoA rest' currentGroupPhotos
                    minSimilarityInGroup processed
        end
  end.

(** The loop over [i] (lines 204-235), on the not yet visited suffix of
    [photosWithEmbeddings]. *)
Fixpoint outer_loop (l : list Photo.t) (groups : list PhotoGroup.t)
    (uniquePhotos : list Photo.t) (processed : gset string)
    : list PhotoGroup.t * list Photo.t :=
  match l with
  | [] => (groups, uniquePhotos)
  | photoA :: rest =>
      if bool_decide (Photo.id photoA ∈ processed)
      then outer_loop rest groups uniquePhotos processed
      else
        let '(currentGroupPhotos, minSimilarityInGroup, processed') :=
          inner_loop photoA rest [photoA] 1%Q ({[Photo.id photoA]} ∪ processed) in
        if bool_decide (1 < length currentGroupPhotos)%nat
        then outer_loop rest
               (groups ++ [finalize_group photoA currentGroupPhotos
                             minSimilarityInGroup similarityThreshold])
               uniquePhotos processed'
        else outer_loop rest groups (uniquePhotos ++ [photoA]) processed'
  end.

Definition groupSimilarPhotos (photos : list Photo.t)
    : list PhotoGroup.t * list Photo.t :=
  let photosWithEmbeddings := filter (λ p, has_embedding p) photos in
  if bool_decide (length photosWithEmbeddings = 0)%nat then
    let photosWithoutEmbeddings :=
      filter (λ p, ¬ has_embedding p) photos in
    ([], js_sort by_dateCreated_desc photosWithoutEmbeddings)
  else
    let '(groups, uniquePhotos) := outer_loop photosWithEmbeddings [] [] ∅ in
    let uniquePhotos := fold_left push_unembedded photos uniquePhotos in
    (js_sort by_date_desc groups, js_sort by_dateCreated_desc uniquePhotos).
End Grouper.

(** Ids of everything placed in some group, and of the residual photos. *)
Definition group_ids (g : PhotoGroup.t) : list string :=
  fmap Photo.id (PhotoGroup.photos g).
Definition placed_ids (r : list PhotoGroup.t * list Photo.t) : list string :=
  concat (fmap group_ids r.1) ++ fmap Photo.id r.2.

(** *** Photos as [addPhotos] assembles them

    [dateCreated] is [new Date(file.lastModified)]; [metadata.captureDate] is
    what [analyzeImage] resolves with. [newPhoto] follows the variant of
    [analyzeImage] that reads EXIF tags: the EXIF date when the file carries
    one, else the file's modification time. [addPhotos_photo] follows the
    [analyzeImage] of [src/utils/imageAnalysis.ts], which does not read them. *)

Module File.
Record t : Type := mk { name : string; lastModified : Z; exifDate : option Z }.
End File.

Definition newPhoto (id : string) (file : File.t) (quality : Z)
    (embedding : option (list Q)) : Photo.t :=
  let dateCreated := File.lastModified file in
  let captureDate := default (File.lastModified file) (File.exifDate file) in
  Photo.mk id (File.name file) dateCreated false quality
    (PhotoMetadata.mk (Some captureDate)) embedding.





(** *** The three-photo scenario *)

Definition photoA0 : Photo.t :=
  newPhoto "A" (File.mk "a.jpg" 3000 None) 50 (Some [1%Q]).
Definition photoB0 : Photo.t :=
  newPhoto "B" (File.mk "b.jpg" 2000 None) 60 (Some [2%Q]).
Definition photoC0 : Photo.t :=
  newPhoto "C" (File.mk "c.jpg" 1000 None) 70 (Some [3%Q]).

(** A similarity table with sim(A,B)=0.8, sim(B,C)=0.75, sim(A,C)=0.5, keyed by
    the one-component embeddings above. *)
Definition sim0 (x y : list Q) : Q :=
  match x, y with
  | [a], [b] =>
      let s := Qred (a + b) in
      if Qeq_bool a b then 1
      else if Qeq_bool s 3 then 8 # 10
      else if Qeq_bool s 5 then 75 # 100
      else if Qeq_bool s 4 then 5 # 10
      else 0
  | _, _ => 0
  end%Q.

(** The scenario as the specification words it: one group holding A, B and C,
    and C not among the unique photos. *)
Definition chained_group_claim (cos_sim : list Q → list Q → Q) (A B C : Photo.t)
    : Prop :=
  let r := groupSimilarPhotos cos_sim (7 # 10) [A; B; C] in
  ∃ g, r.1 = [g]
       ∧ (∀ x, x ∈ group_ids g ↔ x ∈ [Photo.id A; Photo.id B; Photo.id C])
       ∧ Photo.id C ∉ Photo.id <$> r.2.

(** *** Two similar photos of the EXIF-reading variant, whose EXIF date is
    not the file's date *)

Definition photoX0 : Photo.t :=
  newPhoto "X" (File.mk "x.jpg" 2000 (Some 1000)) 90 (Some [1%Q]).
Definition photoY0 : Photo.t :=
  newPhoto "Y" (File.mk "y.jpg" 2500 (Some 1500)) 80 (Some [2%Q]).

(** ** Quality scorer (the [quality] computed by [analyzeImage]) *)

(** JavaScript numbers are IEEE 754 binary64 values. [spec_float] with a
    53-bit mantissa and exponent bound 1024 specifies them; every operation
    rounds to nearest, ties to even, and NaN, the infinities and the signed
    zeros behave as the standard says. *)
Module Number.
Definition t : Type := spec_float.
Definition add : t → t → t := SFadd 53 1024.
Definition sub : t → t → t := SFsub 53 1024.
Definition mul : t → t → t := SFmul 53 1024.
Definition div : t → t → t := SFdiv 53 1024.
Definition sqrt : t → t := SFsqrt 53 1024.
(** An integer literal, or an integer count such as [dims[0]]. *)
Definition of_Z (n : Z) : t := binary_normalize 53 1024 n 0 false.
(** The rational a finite number stands for. *)
Definition to_Q (x : t) : option Q :=
  match x with
  | S754_zero _ => Some 0%Q
  | S754_finite s m e => Some (inject_Z (cond_Zopp s (Zpos m)) * 2 ^ e)%Q
  | S754_infinity _ | S754_nan => None
  end.
End Number.

(** What [Math.round] returns, and [Math.min] and [Math.max] of such values:
    an integer, an infinity or NaN. The sign of a zero is not kept; the
    [Math.max(0, ...)] that closes line 158 returns +0 for either zero. *)
Inductive rounded : Type :=
  | Integer (n : Z)
  | Infinite (negative : bool)
  | NotANumber.

(** [Math.round]: the integer nearest to the exact value, halves towards plus
    infinity; infinities and NaN are returned as they are. *)
Definition math_round (x : Number.t) : rounded :=
  match x with
  | S754_nan => NotANumber
  | S754_infinity s => Infinite s
  | S754_zero _ => Integer 0
  | S754_finite s m e =>
      Integer (Qfloor (inject_Z (cond_Zopp s (Zpos m)) * 2 ^ e + (1 # 2)))
  end.

(** [Math.min] and [Math.max]: NaN if an argument is NaN. *)
Definition math_min (a b : rounded) : rounded :=
  match a, b with
  | NotANumber, _ | _, NotANumber => NotANumber
  | Infinite true, _ | _, Infinite true => Infinite true
  | Infinite false, y => y
  | x, Infinite false => x
  | Integer x, Integer y => Integer (Z.min x y)
  end.
Definition math_max (a b : rounded) : rounded :=
  match a, b with
  | NotANumber, _ | _, NotANumber => NotANumber
  | Infinite false, _ | _, Infinite false => Infinite false
  | Infinite true, y => y
  | x, Infinite true => x
  | Integer x, Integer y => Integer (Z.max x y)
  end.

(** The number handed to [Math.round] on line 158:
    [((rawScore*15 + 1) / 2) * 100]. *)
Definition scaled (rawScore : Number.t) : Number.t :=
  Number.mul
    (Number.div
       (Number.add (Number.mul rawScore (Number.of_Z 15)) (Number.of_Z 1))
       (Number.of_Z 2))
    (Number.of_Z 100).

(** Line 158. *)
Definition calibrate (rawScore : Number.t) : rounded :=
  math_max (Integer 0) (math_min (Integer 100) (math_round (scaled rawScore))).

Section Scorer.
(** [cos_sim] comes from an external package. Inside [analyzeImage] its calls
    sit in a [try] block: [None] stands for a call that throws; a call that
    returns may return any number, NaN included. *)
Variable cos_sim : list Number.t → list Number.t → option Number.t.

(** One of the two [for] loops (lines 136-141 and 146-151) over the rows of a
    prompt tensor, a tensor being the list of its rows. *)
Fixpoint total_similarity (embedding : list Number.t) (rows : list (list Number.t))
    (total : Number.t) : option Number.t :=
  match rows with
  | [] => Some total
  | row :: rows' =>
      s ← cos_sim embedding row;
      total_similarity embedding rows' (Number.add total s)
  end.

(** [dims[0]] *)
Definition dims0 (rows : list (list Number.t)) : Number.t :=
  Number.of_Z (Z.of_nat (length rows)).

Definition try_quality (embedding : list Number.t)
    (positiveEmbeddings negativeEmbeddings : list (list Number.t))
    : option rounded :=
  totalPositiveSimilarity ←
    total_similarity embedding positiveEmbeddings (Number.of_Z 0);
  let avgPositiveSimilarity :=
    Number.div totalPositiveSimilarity (dims0 positiveEmbeddings) in
  totalNegativeSimilarity ←
    total_similarity embedding negativeEmbeddings (Number.of_Z 0);
  let avgNegativeSimilarity :=
    Number.div totalNegativeSimilarity (dims0 negativeEmbeddings) in
  let rawScore := Number.sub avgPositiveSimilarity avgNegativeSimilarity in
  Some (calibrate rawScore).

Definition analyzeImage_quality (embedding : option (list Number.t))
    (qualityEmbeddings : option (list (list Number.t) * list (list Number.t)))
    : rounded :=
  match embedding, qualityEmbeddings with
  | Some e, Some (positiveEmbeddings, negativeEmbeddings) =>
      if bool_decide (0 < length e)%nat then
        match try_quality e positiveEmbeddings negativeEmbeddings with
        | Some quality => quality
        | None => Integer 0
        end
      else Integer 0
  | _, _ => Integer 0
  end.
End Scorer.

(** The average the code computes: the similarities added from the left,
    starting at 0, then divided by their count. *)
Definition average (sims : list Number.t) : Number.t :=
  Number.div (fold_left Number.add sims (Number.of_Z 0))
    (Number.of_Z (Z.of_nat (length sims))).

(** The specification's wording of the score, over exact numbers: the clamp
    of the rounded affine image of [raw], with [raw] the difference of two
    arithmetic means. *)
Definition Qsum (l : list Q) : Q := foldr Qplus 0%Q l.
Definition arithmetic_mean (l : list Q) : Q :=
  (Qsum l / inject_Z (Z.of_nat (length l)))%Q.
Definition round_half_up (x : Q) : Z := Qfloor (x + (1 # 2)).
Definition clamp (lo hi x : Z) : Z := if x <? lo then lo else if hi <? x then hi else x.
Definition spec_score (raw : Q) : Z :=
  clamp 0 100 (round_half_up (((raw * 15 + 1) / 2) * 100)).

(** The claim on the score as worded, for the similarities of a run and the
    quality it returned: an integer from 0 to 100, namely the specification's
    formula at the difference of the exact means. *)
Definition quality_formula_claim (positiveSims negativeSims : list Number.t)
    (quality : rounded) : Prop :=
  ∃ n, quality = Integer n ∧ 0 ≤ n ≤ 100
       ∧ ∀ pos neg,
           Forall2 (λ s q, Number.to_Q s = Some q) positiveSims pos →
           Forall2 (λ s q, Number.to_Q s = Some q) negativeSims neg →
           n = spec_score (arithmetic_mean pos - arithmetic_mean neg).

(** ** Selection store (the reducer of [PhotoContext.tsx]) *)

Inductive PhotoAction : Type :=
  | ADD_PHOTO_AND_UPDATE_GROUPS (photo : Photo.t) (groups : list PhotoGroup.t)
      (uniquePhotos : list Photo.t)
  | TOGGLE_SELECT_PHOTO (photoId : string)
  | SELECT_ALL_IN_GROUP (groupId : string)
  | DESELECT_ALL_IN_GROUP (groupId : string)
  | SELECT_ALL
  | DESELECT_ALL
  | UNDO
  | REDO.

Definition initialState : AppState.t := AppState.mk [] [] [] [] [] (-1).

(** [groups.map(g => g.photos[0].id)]; reading [.id] of the missing first photo
    of an empty group throws. *)
Definition best_ids (groups : list PhotoGroup.t) : option (list string) :=
  mapM (λ g, Photo.id <$> head (PhotoGroup.photos g)) groups.

(** [[...state.history.slice(0, state.currentHistoryIndex + 1), entry]] *)
Definition push_history (state : AppState.t) (entry : HistoryEntry.t)
    : list HistoryEntry.t :=
  js_slice0 (AppState.history state) (AppState.currentHistoryIndex state + 1)
    ++ [entry].

(** The tail shared by the five selection cases: new selection, one more
    history entry, the index moved on by one, and the rewritten photos. *)
Definition commit (now : Z) (state : AppState.t) (newSelectedPhotos : list string)
    (photos : list Photo.t) : AppState.t :=
  AppState.mk photos (AppState.groups state) newSelectedPhotos
    (AppState.uniquePhotos state)
    (push_history state (HistoryEntry.mk newSelectedPhotos now))
    (AppState.currentHistoryIndex state + 1).

(** [{ ...state, selectedPhotos, currentHistoryIndex }] of UNDO and REDO *)
Definition restore (state : AppState.t) (historyState : HistoryEntry.t)
    (index : Z) : AppState.t :=
  let sel := HistoryEntry.selectedPhotos historyState in
  AppState.mk
    (fmap (λ photo, Photo.with_selected (includes sel (Photo.id photo)) photo)
       (AppState.photos state))
    (AppState.groups state) sel (AppState.uniquePhotos state)
    (AppState.history state) index.

(** The selection computed by TOGGLE_SELECT_PHOTO (lines 112-119):
    [push] when [indexOf] finds nothing, else [splice(selectedIndex, 1)]. *)
Definition toggled (selectedPhotos : list string) (photoId : string) : list string :=
  let selectedIndex := indexOf selectedPhotos photoId in
  if selectedIndex =? -1 then selectedPhotos ++ [photoId]
  else delete (Z.to_nat selectedIndex) selectedPhotos.

Definition find_group (state : AppState.t) (groupId : string) : option PhotoGroup.t :=
  List.find (λ g, bool_decide (PhotoGroup.id g = groupId)) (AppState.groups state).

Definition reducer (now : Z) (state : AppState.t) (action : PhotoAction)
    : option AppState.t :=
  match action with
  | ADD_PHOTO_AND_UPDATE_GROUPS photo groups uniquePhotos =>
      let updatedPhotos := AppState.photos state ++ [photo] in
      best ← best_ids groups;
      let autoSelectedPhotos := fmap Photo.id uniquePhotos ++ best in
      (* lines 54-63 only read; they change nothing *)
      let photos :=
        fmap (λ p, Photo.with_selected (includes autoSelectedPhotos (Photo.id p)) p)
          updatedPhotos in
      let newHistoryEntry := HistoryEntry.mk autoSelectedPhotos now in
      if bool_decide (length (AppState.photos state) = 0)%nat then
        Some (AppState.mk photos groups autoSelectedPhotos uniquePhotos
                [newHistoryEntry] 0)
      else
        let history := push_history state newHistoryEntry in
        Some (AppState.mk photos groups autoSelectedPhotos uniquePhotos
                history (Z.of_nat (length history) - 1))
  | TOGGLE_SELECT_PHOTO photoId =>
      let newSelectedPhotos := toggled (AppState.selectedPhotos state) photoId in
      Some (commit now state newSelectedPhotos
              (fmap (λ photo,
                      if bool_decide (Photo.id photo = photoId)
                      then Photo.with_selected (negb (Photo.selected photo)) photo
                      else photo)
                 (AppState.photos state)))
  | SELECT_ALL_IN_GROUP groupId =>
      match find_group state groupId with
      | None => Some state
      | Some group =>
          let photoIds := fmap Photo.id (PhotoGroup.photos group) in
          let newSelectedPhotos :=
            array_from_set (AppState.selectedPhotos state ++ photoIds) in
          if bool_decide (length newSelectedPhotos
                          = length (AppState.selectedPhotos state))
             && forallb (includes (AppState.selectedPhotos state)) newSelectedPhotos
          then Some state
          else
            Some (commit now state newSelectedPhotos
                    (fmap (λ photo,
                            if includes photoIds (Photo.id photo)
                            then Photo.with_selected true photo else photo)
                       (AppState.photos state)))
      end
  | DESELECT_ALL_IN_GROUP groupId =>
      match find_group state groupId with
      | None => Some state
      | Some group =>
          let photoIds := fmap Photo.id (PhotoGroup.photos group) in
          let initialSelectedCount := length (AppState.selectedPhotos state) in
          let newSelectedPhotos :=
            filter (λ id, ¬ includes photoIds id) (AppState.selectedPhotos state) in
          if bool_decide (length newSelectedPhotos = initialSelectedCount)
          then Some state
          else
            Some (commit now state newSelectedPhotos
                    (fmap (λ photo,
                            if includes photoIds (Photo.id photo)
                            then Photo.with_selected false photo else photo)
                       (AppState.photos state)))
      end
  | SELECT_ALL =>
      let allPhotoIds := fmap Photo.id (AppState.photos state) in
      if bool_decide (length allPhotoIds = length (AppState.selectedPhotos state))
         && forallb (includes (AppState.selectedPhotos state)) allPhotoIds
      then Some state
      else Some (commit now state allPhotoIds
                   (fmap (Photo.with_selected true) (AppState.photos state)))
  | DESELECT_ALL =>
      if bool_decide (length (AppState.selectedPhotos state) = 0)%nat
      then Some state
      else Some (commit now state []
                   (fmap (Photo.with_selected false) (AppState.photos state)))
  | UNDO =>
      if AppState.currentHistoryIndex state <=? 0 then Some state
      else
        historyState ←
          js_index (AppState.history state) (AppState.currentHistoryIndex state - 1);
        Some (restore state historyState (AppState.currentHistoryIndex state - 1))
  | REDO =>
      if Z.of_nat (length (AppState.history state)) - 1
         <=? AppState.currentHistoryIndex state
      then Some state
      else
        historyState ←
          js_index (AppState.history state) (AppState.currentHistoryIndex state + 1);
        Some (restore state historyState (AppState.currentHistoryIndex state + 1))
  end.

(** ** The store driven by [addPhotos], and sample states *)

(** Steps 5 and 6 of [addPhotos]: regroup the stored photos plus the new one
    with the default threshold, then dispatch. *)
Definition addPhoto_dispatch (cos_sim : list Q → list Q → Q) (now : Z)
    (state : AppState.t) (newPhoto : Photo.t) : option AppState.t :=
  let nextPhotos := AppState.photos state ++ [newPhoto] in
  let '(groups, uniquePhotos) := groupSimilarPhotos cos_sim (7 # 10) nextPhotos in
  reducer now state (ADD_PHOTO_AND_UPDATE_GROUPS newPhoto groups uniquePhotos).

(** The store after ingesting [photoC0] alone. *)
Definition state_one : AppState.t :=
  AppState.mk [Photo.with_selected true photoC0] [] ["C"] [photoC0]
    [HistoryEntry.mk ["C"] 0] 0.

(** [state_one] after TOGGLE_SELECT_PHOTO on its photo, at clock 1. *)
Definition state_cleared : AppState.t :=
  AppState.mk [Photo.with_selected false photoC0] [] [] [photoC0]
    [HistoryEntry.mk ["C"] 0; HistoryEntry.mk [] 1] 1.

(** Two photos without embedding that were given one and the same id. *)
Definition photoD0 : Photo.t := newPhoto "D" (File.mk "d.jpg" 500 None) 0 None.
Definition photoD1 : Photo.t := newPhoto "D" (File.mk "d.jpg" 400 None) 0 None.

(** The store after ingesting [photoD0] and then [photoD1]. *)
Definition state_dup : AppState.t :=
  AppState.mk
    [Photo.with_selected true photoD0; Photo.with_selected true photoD1] []
    ["D"; "D"]
    [Photo.with_selected true photoD0; photoD1]
    [HistoryEntry.mk ["D"] 0; HistoryEntry.mk ["D"; "D"] 1] 1.

(** Stand-ins for [cos_sim] in the scorer. [dot] accumulates the products
    from the left; reading past the end of the second vector gives NaN.
    [cosine] divides it by the product of the two magnitudes. *)
Fixpoint dot_from (arr1 arr2 : list Number.t) (result : Number.t) : Number.t :=
  match arr1, arr2 with
  | [], _ => result
  | a :: arr1', b :: arr2' => dot_from arr1' arr2' (Number.add result (Number.mul a b))
  | _ :: _, [] => S754_nan
  end.
Definition dot (arr1 arr2 : list Number.t) : option Number.t :=
  Some (dot_from arr1 arr2 (Number.of_Z 0)).
Definition magnitude (arr : list Number.t) : Number.t :=
  Number.sqrt (dot_from arr arr (Number.of_Z 0)).
Definition cosine (arr1 arr2 : list Number.t) : option Number.t :=
  Some (Number.div (dot_from arr1 arr2 (Number.of_Z 0))
          (Number.mul (magnitude arr1) (magnitude arr2))).

(** The numbers written 0.1, 0.9, 0.8 and 0.01: the quotients of two integers,
    rounded once. *)
Definition decimal (numerator denominator : Z) : Number.t :=
  Number.div (Number.of_Z numerator) (Number.of_Z denominator).

(** Prompt tensors whose rows have one component. *)
Definition rows_of (sims : list Number.t) : list (list Number.t) := (λ s, [s]) <$> sims.
Definition sims_tenth : list Number.t := decimal 1 10 :: replicate 9 (Number.of_Z 0).
Definition sims_zero : list Number.t := replicate 10 (Number.of_Z 0).

(** ** Predicates of the specification *)

(** [photos[i].selected == selectedPhotos.contains(photos[i].id)] *)
Definition selection_consistent (s : AppState.t) : Prop :=
  Forall (λ p, Photo.selected p = includes (AppState.selectedPhotos s) (Photo.id p))
    (AppState.photos s).

(** How often an id is listed in a selection. *)
Definition occurrences (x : string) (l : list string) : nat :=
  length (filter (λ y, y = x) l).

(** [-1 <= currentHistoryIndex < history.length] *)
Definition history_wf (s : AppState.t) : Prop :=
  -1 ≤ AppState.currentHistoryIndex s < Z.of_nat (length (AppState.history s)).

(** States the store can be in: [initialState] and whatever the reducer
    returns from such a state, for any action and any clock value. *)
Inductive reachable : AppState.t → Prop :=
  | reachable_init : reachable initialState
  | reachable_step now s a s' :
      reachable s → reducer now s a = Some s' → reachable s'.

(** No id is listed twice, in the selection or in any history entry, and no
    two photos share an id. *)
Definition ids_distinct (s : AppState.t) : Prop :=
  NoDup (Photo.id <$> AppState.photos s)
  ∧ NoDup (AppState.selectedPhotos s)
  ∧ Forall (λ e, NoDup (HistoryEntry.selectedPhotos e)) (AppState.history s).

(** States reached when every ingest goes through [addPhoto_dispatch] with a
    fresh id, as [addPhotos] does. *)
Inductive pipeline_reachable (cos_sim : list Q → list Q → Q) : AppState.t → Prop :=
  | pipeline_init : pipeline_reachable cos_sim initialState
  | pipeline_ingest now s photo s' :
      pipeline_reachable cos_sim s →
      Photo.id photo ∉ Photo.id <$> AppState.photos s →
      addPhoto_dispatch cos_sim now s photo = Some s' →
      pipeline_reachable cos_sim s'
  | pipeline_select now s a s' :
      pipeline_reachable cos_sim s →
      (∀ photo groups uniquePhotos,
         a ≠ ADD_PHOTO_AND_UPDATE_GROUPS photo groups uniquePhotos) →
      reducer now s a = Some s' →
      pipeline_reachable cos_sim s'.

(** A transition that appends to history: an ingest onto a non-empty photo
    list, or one of the five selection actions when it is not a no-op. *)
Definition appends_history (s : AppState.t) (a : PhotoAction) (s' : AppState.t)
    : Prop :=
  match a with
  | ADD_PHOTO_AND_UPDATE_GROUPS _ _ _ => AppState.photos s ≠ []
  | UNDO | REDO => False
  | _ => s' ≠ s
  end.

(** A photo's capture date: the metadata timestamp, else the file's
    modification time ([metadata.captureDate ?? basicPhoto.dateCreated]). *)
Definition capture_date (p : Photo.t) : Z :=
  default (Photo.dateCreated p) (PhotoMetadata.captureDate (Photo.metadata p)).

Definition group_date_is_capture_date (g : PhotoGroup.t) : Prop :=
  ∃ top, head (PhotoGroup.photos g) = Some top
         ∧ PhotoGroup.date g = capture_date top.

Definition group_date_is_dateCreated (g : PhotoGroup.t) : Prop :=
  ∃ top, head (PhotoGroup.photos g) = Some top
         ∧ PhotoGroup.date g = Photo.dateCreated top.



(** The claims on TOGGLE_SELECT_PHOTO and on the selection flags, as worded. *)
Definition toggle_unknown_is_noop (now : Z) (s : AppState.t) (photoId : string)
    : Prop :=
  photoId ∉ Photo.id <$> AppState.photos s →
  reducer now s (TOGGLE_SELECT_PHOTO photoId) = Some s.

Definition transition_keeps_flags (now : Z) (s : AppState.t) (a : PhotoAction)
    : Prop :=
  ∀ s', reducer now s a = Some s' → selection_consistent s → selection_consistent s'.

(** ** Further notions: the grouping result *)

(** The similarity the inner loop computes for an anchor and a candidate
    (lines 213-214); none when an embedding is missing. *)
Definition anchor_similarity (cos_sim : list Q → list Q → Q)
    (photoA photoB : Photo.t) : option Q :=
  match Photo.embedding photoA, Photo.embedding photoB with
  | Some ea, Some eb => Some (cos_sim ea eb)
  | _, _ => None
  end.

(** [minSimilarityInGroup] after the members were added in turn. *)
Definition tracked_minimum (cos_sim : list Q → list Q → Q) (photoA : Photo.t)
    (members : list Photo.t) : Q :=
  fold_left
    (λ m photoB,
       match anchor_similarity cos_sim photoA photoB with
       | Some s => Qmin m s
       | None => m
       end)
    members 1%Q.

(** A group is an anchor plus at least one member that passed the test against
    that anchor, and records the minimum tracked over these members. *)
Definition anchored_group (cos_sim : list Q → list Q → Q) (thr : Q)
    (g : PhotoGroup.t) : Prop :=
  ∃ anchor members,
    PhotoGroup.photos g ≡ₚ anchor :: members
    ∧ members ≠ []
    ∧ Forall (λ photoB, ∃ s, anchor_similarity cos_sim anchor photoB = Some s
                             ∧ (thr <= s)%Q) members
    ∧ PhotoGroup.similarity g = tracked_minimum cos_sim anchor members.

(** All photos of the result, groups first. *)
Definition placed_photos (r : list PhotoGroup.t * list Photo.t) : list Photo.t :=
  concat (PhotoGroup.photos <$> r.1) ++ r.2.

Definition date_desc (a b : PhotoGroup.t) : Prop :=
  PhotoGroup.date b ≤ PhotoGroup.date a.
Definition dateCreated_desc (a b : Photo.t) : Prop :=
  Photo.dateCreated b ≤ Photo.dateCreated a.

(** The test that lets the inner loop add [photoB] to the group of [photoA]. *)
Definition similar_enough (cos_sim : list Q → list Q → Q) (thr : Q)
    (photoA photoB : Photo.t) : Prop :=
  ∃ s, anchor_similarity cos_sim photoA photoB = Some s ∧ (thr <= s)%Q.

Definition in_some_group (groups : list PhotoGroup.t) (p : Photo.t) : Prop :=
  ∃ g, g ∈ groups ∧ p ∈ PhotoGroup.photos g.

(** [`${sortedPhotos[0].id}-group`] *)
Definition group_id_of_top (g : PhotoGroup.t) : Prop :=
  ∃ top, head (PhotoGroup.photos g) = Some top
         ∧ PhotoGroup.id g = Photo.id top +:+ "-group".

(** ** Further notions: the store *)

(** The history entry under the index holds the current selection. *)
Definition current_entry_synced (s : AppState.t) : Prop :=
  ∃ e, js_index (AppState.history s) (AppState.currentHistoryIndex s) = Some e
       ∧ HistoryEntry.selectedPhotos e = AppState.selectedPhotos s.

(** The four bulk selection actions. *)
Definition is_bulk_selection (a : PhotoAction) : Prop :=
  match a with
  | SELECT_ALL_IN_GROUP _ | DESELECT_ALL_IN_GROUP _ | SELECT_ALL | DESELECT_ALL => True
  | _ => False
  end.

(** [downloadSelected] (lines 492-505): for every selected id in stored order,
    the first photo carrying that id, if any, is handed to a download link.
    The result lists the photos downloaded, in order. *)
Definition downloadSelected (state : AppState.t) : list Photo.t :=
  omap (λ photoId,
          List.find (λ p, bool_decide (Photo.id p = photoId)) (AppState.photos state))
    (AppState.selectedPhotos state).

(** [state_one] after ingesting [photoB0] at clock 1: the stored copy of
    [photoC0] anchors a group with it. *)
Definition group_pair : PhotoGroup.t :=
  PhotoGroup.mk "C-group" 1000 [Photo.with_selected true photoC0; photoB0]
    (75 # 100) (7 # 10).
Definition state_pair : AppState.t :=
  AppState.mk [Photo.with_selected true photoC0; photoB0] [group_pair] ["C"] []
    [HistoryEntry.mk ["C"] 0; HistoryEntry.mk ["C"] 1] 1.

(** * Proofs *)

(** ** The sort *)

Section SortFacts.
Context {A : Type} (key : A → Z) (cmp : A → A → Z).
Hypothesis cmp_key : ∀ a b, cmp a b = key b - key a.

Lemma sort_insert_perm (x : A) (l : list A) : sort_insert cmp x l ≡ₚ x :: l.
Proof.
  induction l as [|y l IH]; simpl; [done|].
  destruct (cmp x y <=? 0); [done|].
  rewrite IH. apply Permutation_swap.
Qed.

Lemma js_sort_perm (l : list A) : js_sort cmp l ≡ₚ l.
Proof.
  induction l as [|x l IH]; simpl; [done|].
  by rewrite sort_insert_perm, IH.
Qed.

Lemma sort_insert_sorted (x : A) (l : list A) :
  StronglySorted (λ a b, key b ≤ key a) l →
  StronglySorted (λ a b, key b ≤ key a) (sort_insert cmp x l).
Proof.
  induction 1 as [|y l Hs IH Hy]; simpl.
  - repeat constructor.
  - destruct (Z.leb_spec (cmp x y) 0) as [Hle|Hgt]; rewrite cmp_key in *.
    + constructor; [by constructor|].
      constructor; [lia|].
      eapply Forall_impl; [exact Hy|]. simpl. intros; lia.
    + constructor; [done|].
      rewrite sort_insert_perm. constructor; [lia|done].
Qed.

Lemma js_sort_sorted (l : list A) :
  StronglySorted (λ a b, key b ≤ key a) (js_sort cmp l).
Proof.
  induction l; simpl; [constructor|by apply sort_insert_sorted].
Qed.



Lemma js_sort_length (l : list A) : length (js_sort cmp l) = length l.
Proof. by rewrite js_sort_perm. Qed.

Lemma js_sort_elem_of (x : A) (l : list A) : x ∈ js_sort cmp l ↔ x ∈ l.
Proof. by rewrite js_sort_perm. Qed.
End SortFacts.

(** ** Distinct ids and the photos without an embedding *)

Lemma NoDup_fmap_inj_on {A B} (f : A → B) (l : list A) (x y : A) :
  NoDup (f <$> l) → x ∈ l → y ∈ l → f x = f y → x = y.
Proof.
  induction l as [|z l IH]; [by intros _ ?%elem_of_nil|].
  rewrite fmap_cons, NoDup_cons, !elem_of_cons.
  intros [Hz Hnd] [->|Hx] [->|Hy] Hf; [done| | |by apply IH].
  - destruct Hz. rewrite Hf. by apply list_elem_of_fmap_2.
  - destruct Hz. rewrite <- Hf. by apply list_elem_of_fmap_2.
Qed.

Lemma existsb_same_id (p : Photo.t) (U : list Photo.t) :
  existsb (λ up, bool_decide (Photo.id up = Photo.id p)) U = false
  ↔ Photo.id p ∉ Photo.id <$> U.
Proof.
  induction U as [|u U IH]; cbn [existsb].
  - split; [intros _ ?%elem_of_nil|]; done.
  - rewrite fmap_cons, not_elem_of_cons, <- IH, orb_false_iff.
    rewrite bool_decide_eq_false. naive_solver.
Qed.

Lemma fold_push_unembedded (photos U : list Photo.t) :
  NoDup (Photo.id <$> photos) →
  (∀ p, p ∈ photos → ¬ has_embedding p → Photo.id p ∉ Photo.id <$> U) →
  fold_left push_unembedded photos U
  = U ++ filter (λ p, ¬ has_embedding p) photos.
Proof.
  revert U. induction photos as [|p ps IH]; intros U Hnd HU; cbn [fold_left].
  - by rewrite app_nil_r.
  - rewrite fmap_cons in Hnd. apply NoDup_cons in Hnd as [Hp Hnd].
    unfold push_unembedded at 2.
    destruct (has_embedding p) eqn:Hemb; cbn [negb andb].
    + rewrite filter_cons.
      destruct (decide (¬ has_embedding p)) as [Hd|_]; [by rewrite Hemb in Hd|].
      apply IH; [done|]. intros q Hq. apply HU. by right.
    + assert (Hfresh : Photo.id p ∉ Photo.id <$> U).
      { apply HU; [by left|]. rewrite Hemb. by intros []. }
      apply existsb_same_id in Hfresh as ->. cbn [negb].
      rewrite filter_cons.
      destruct (decide (¬ has_embedding p)) as [_|Hd];
        [|by destruct Hd; rewrite Hemb; intros []].
      rewrite IH, <- app_assoc; [done..|].
      intros q Hq Hqe. rewrite fmap_app, elem_of_app. intros [HqU|Hqp].
      * by eapply HU; [right| |].
      * apply list_elem_of_singleton in Hqp. apply Hp. rewrite <- Hqp.
        by apply list_elem_of_fmap_2.
Qed.

(** ** The grouping loops *)

Section GrouperFacts.
Variable cos_sim : list Q → list Q → Q.
Variable thr : Q.

(** What one pass of the inner loop does: it appends to the candidate a
    subsequence of the remaining photos and marks exactly those. *)
Lemma inner_loop_spec photoA rest cur m (P : gset string) cur' m' P' :
  inner_loop cos_sim thr photoA rest cur m P = (cur', m', P') →
  ∃ added, cur' = cur ++ added ∧ sublist added rest
           ∧ P' = list_to_set (fmap Photo.id added) ∪ P.
Proof.
  revert cur m P. induction rest as [|photoB rest IH]; intros cur m P; simpl.
  - intros [= <- <- <-]. exists []. rewrite app_nil_r. split_and!; [done..|].
    set_solver.
  - assert (Hskip : ∀ cur m,
      inner_loop cos_sim thr photoA rest cur m P = (cur', m', P') →
      ∃ added, cur' = cur ++ added ∧ sublist added (photoB :: rest)
               ∧ P' = list_to_set (fmap Photo.id added) ∪ P).
    { intros cur0 m0 Hrun. destruct (IH _ _ _ Hrun) as (added & ? & ? & ?).
      exists added. split_and!; [done| by apply sublist_cons |done]. }
    case_bool_decide as HB; [by apply Hskip|].
    destruct (Photo.embedding photoA) as [ea|], (Photo.embedding photoB) as [eb|];
      try by apply Hskip.
    destruct (Qle_bool thr (cos_sim ea eb)); [|by apply Hskip].
    intros Hrun. destruct (IH _ _ _ Hrun) as (added & Hcur & Hsub & HP).
    exists (photoB :: added). subst cur' P'.
    rewrite <- app_assoc. split_and!; [done| by apply sublist_skip |].
    simpl. set_solver.
Qed.

(** The tracked minimum stays between the threshold and its start value. *)
Lemma inner_loop_min photoA rest cur m (P : gset string) cur' m' P' :
  inner_loop cos_sim thr photoA rest cur m P = (cur', m', P') →
  (thr <= m)%Q → (m <= 1)%Q → (thr <= m')%Q ∧ (m' <= 1)%Q.
Proof.
  revert cur m P. induction rest as [|photoB rest IH]; intros cur m P; simpl.
  - by intros [= <- <- <-].
  - case_bool_decide as HB; [by apply IH|].
    destruct (Photo.embedding photoA) as [ea|], (Photo.embedding photoB) as [eb|];
      try by apply IH.
    destruct (Qle_bool thr (cos_sim ea eb)) eqn:Hle; [|by apply IH].
    intros Hrun Hlo Hhi. apply Qle_bool_iff in Hle.
    eapply IH; [exact Hrun| |].
    + by apply Q.min_glb.
    + eapply Qle_trans; [apply Q.le_min_l|done].
Qed.

(** With distinct ids, the photos still unmarked before a pass are the ones
    it added plus the ones still unmarked after it. *)
Lemma filter_unmarked_fresh (x : string) (P : gset string) (l : list Photo.t) :
  x ∉ Photo.id <$> l →
  filter (λ p, Photo.id p ∉ {[x]} ∪ P) l = filter (λ p, Photo.id p ∉ P) l.
Proof.
  induction l as [|p l IH]; [done|].
  rewrite fmap_cons, not_elem_of_cons. intros [Hne Hl].
  rewrite !(filter_cons _ p), IH by done.
  repeat case_decide; try done; set_solver.
Qed.

Lemma inner_loop_perm photoA rest cur m (P : gset string) cur' m' P' :
  NoDup (fmap Photo.id rest) →
  inner_loop cos_sim thr photoA rest cur m P = (cur', m', P') →
  ∃ added, cur' = cur ++ added
           ∧ P' = list_to_set (fmap Photo.id added) ∪ P
           ∧ filter (λ p, Photo.id p ∉ P) rest
             ≡ₚ added ++ filter (λ p, Photo.id p ∉ P') rest.
Proof.
  revert cur m P. induction rest as [|photoB rest IH]; intros cur m P Hnd; cbn [inner_loop].
  - intros [= <- <- <-]. exists []. rewrite app_nil_r. split_and!; [done| |done].
    set_solver.
  - rewrite fmap_cons in Hnd. apply NoDup_cons in Hnd as [HBrest Hnd].
    assert (Hskip : ∀ cur m,
      inner_loop cos_sim thr photoA rest cur m P = (cur', m', P') →
      Photo.id photoB ∉ P →
      ∃ added, cur' = cur ++ added
           ∧ P' = list_to_set (fmap Photo.id added) ∪ P
           ∧ filter (λ p, Photo.id p ∉ P) (photoB :: rest)
             ≡ₚ added ++ filter (λ p, Photo.id p ∉ P') (photoB :: rest)).
    { intros cur0 m0 Hrun HB.
      pose proof Hrun as (added0 & Hc0 & Hsub & _)%inner_loop_spec.
      destruct (IH _ _ _ Hnd Hrun) as (added & Hc & HP & Hperm).
      exists added. split_and!; [done..|].
      assert (Photo.id photoB ∉ P') as HB'.
      { subst P'. rewrite Hc in Hc0. apply app_inv_head in Hc0 as <-.
        rewrite elem_of_union, elem_of_list_to_set. intros [Hin|]; [|done].
        apply HBrest. eapply sublist_subseteq; [|exact Hin].
        by apply fmap_sublist. }
      rewrite !filter_cons_True by done. rewrite Hperm.
      apply Permutation_middle. }
    case_bool_decide as HB.
    { intros Hrun. destruct (IH _ _ _ Hnd Hrun) as (added & Hc & HP & Hperm).
      exists added. split_and!; [done..|].
      rewrite !filter_cons_False; [done| set_solver | set_solver]. }
    destruct (Photo.embedding photoA) as [ea|], (Photo.embedding photoB) as [eb|];
      try (by intros Hrun; eapply Hskip).
    destruct (Qle_bool thr (cos_sim ea eb)); [|by intros Hrun; eapply Hskip].
    intros Hrun.
    destruct (IH _ _ _ Hnd Hrun) as (added & Hc & HP & Hperm).
    exists (photoB :: added). subst cur' P'. rewrite <- app_assoc.
    split_and!; [done| rewrite fmap_cons; set_solver |].
    rewrite filter_cons_True by done.
    rewrite filter_cons_False by set_solver.
    rewrite <- app_comm_cons, <- Hperm. constructor.
    by rewrite filter_unmarked_fresh.
Qed.

(** Every group pushed by the outer loop is a finalized candidate of some
    anchor, so a property of all such candidates holds of all groups. *)
Lemma outer_loop_groups (l0 : list Photo.t) (Pg : PhotoGroup.t → Prop) :
  (∀ photoA rest (P : gset string) cur m P',
      (photoA :: rest) `suffix_of` l0 →
      inner_loop cos_sim thr photoA rest [photoA] 1%Q P = (cur, m, P') →
      (1 < length cur)%nat →
      Pg (finalize_group photoA cur m thr)) →
  ∀ l G U (P : gset string) G' U',
    l `suffix_of` l0 →
    outer_loop cos_sim thr l G U P = (G', U') →
    Forall Pg G → Forall Pg G'.
Proof.
  intros Hfin l. induction l as [|photoA rest IH]; intros G U P G' U' Hsuf;
    cbn [outer_loop].
  - by intros [= <- <-].
  - assert (Hsuf' : rest `suffix_of` l0) by (by eapply suffix_cons_l).
    case_bool_decide as HA; [by apply IH|].
    destruct (inner_loop _ _ _ _ _ _ _) as [[cur m] P'] eqn:Hinner.
    case_bool_decide as Hlen; [|by apply IH].
    intros Hrun HG. eapply IH; [done..|].
    apply Forall_app. split; [done|]. constructor; [|done].
    by eapply Hfin.
Qed.

(** With distinct ids the outer loop places every photo that was not marked
    beforehand, once. *)
Lemma outer_loop_perm l G U (P : gset string) G' U' :
  NoDup (Photo.id <$> l) →
  outer_loop cos_sim thr l G U P = (G', U') →
  ∃ G2 U2, G' = G ++ G2 ∧ U' = U ++ U2 ∧ U2 `sublist_of` l
           ∧ concat (group_ids <$> G2) ++ (Photo.id <$> U2)
             ≡ₚ Photo.id <$> filter (λ p, Photo.id p ∉ P) l.
Proof.
  revert G U P. induction l as [|photoA rest IH]; intros G U P Hnd;
    cbn [outer_loop].
  - intros [= <- <-]. exists [], []. by rewrite !app_nil_r.
  - rewrite fmap_cons in Hnd. apply NoDup_cons in Hnd as [HArest Hnd].
    case_bool_decide as HA.
    { intros Hrun. destruct (IH _ _ _ Hnd Hrun) as (G2 & U2 & ? & ? & ? & Hperm).
      exists G2, U2. split_and!; [done..| by apply sublist_cons |].
      by rewrite filter_cons_False by (by intros []). }
    destruct (inner_loop _ _ _ _ _ _ _) as [[cur m] P'] eqn:Hinner.
    eapply inner_loop_perm in Hinner as (added & -> & -> & Hadded); [|done].
    rewrite filter_unmarked_fresh in Hadded by done.
    assert (Hgoal : Photo.id <$> filter (λ p, Photo.id p ∉ P) (photoA :: rest)
              ≡ₚ (Photo.id <$> [photoA] ++ added)
                 ++ (Photo.id <$> filter
                      (λ p, Photo.id p
                            ∉ list_to_set (Photo.id <$> added) ∪ ({[Photo.id photoA]} ∪ P))
                      rest)).
    { rewrite filter_cons_True by done.
      by rewrite fmap_cons, Hadded, !fmap_app. }
    case_bool_decide as Hlen.
    + intros Hrun. destruct (IH _ _ _ Hnd Hrun) as (G2 & U2 & -> & -> & ? & Hperm).
      eexists (_ :: G2), U2. rewrite <- app_assoc.
      split_and!; [done..| by apply sublist_cons |].
      rewrite Hgoal, fmap_cons. cbn [concat]. rewrite <- app_assoc, Hperm.
      unfold group_ids at 1, finalize_group. cbn [PhotoGroup.photos].
      by rewrite js_sort_perm.
    + intros Hrun. destruct (IH _ _ _ Hnd Hrun) as (G2 & U2 & -> & -> & ? & Hperm).
      exists G2, (photoA :: U2). rewrite <- app_assoc.
      split_and!; [done..| by apply sublist_skip |].
      destruct added as [|? ?]; [|by rewrite length_app in Hlen; simpl in Hlen; lia].
      rewrite Hgoal, fmap_cons. by rewrite <- Permutation_middle, Hperm.
Qed.

(** *** The whole function *)

Lemma groupSimilarPhotos_groups (photos : list Photo.t) (Pg : PhotoGroup.t → Prop) :
  (∀ photoA rest (P : gset string) cur m P',
      (photoA :: rest) `suffix_of` filter (λ p, has_embedding p) photos →
      inner_loop cos_sim thr photoA rest [photoA] 1%Q P = (cur, m, P') →
      (1 < length cur)%nat →
      Pg (finalize_group photoA cur m thr)) →
  Forall Pg (groupSimilarPhotos cos_sim thr photos).1.
Proof.
  intros Hfin. unfold groupSimilarPhotos.
  case_bool_decide as Hnone; [by constructor|].
  destruct (outer_loop _ _ _ _ _ _) as [G U] eqn:Hrun. cbn [fst].
  rewrite js_sort_perm.
  eapply outer_loop_groups; [exact Hfin| |exact Hrun|constructor]. done.
Qed.

Lemma filter_unmarked_empty (P : gset string) (l : list Photo.t) :
  P = ∅ → filter (λ p, Photo.id p ∉ P) l = l.
Proof.
  intros ->. induction l as [|p l IH]; [done|].
  rewrite filter_cons_True by set_solver. by rewrite IH.
Qed.

Lemma groupSimilarPhotos_placed (photos : list Photo.t) :
  NoDup (Photo.id <$> photos) →
  placed_ids (groupSimilarPhotos cos_sim thr photos) ≡ₚ Photo.id <$> photos
  ∧ ∀ p, p ∈ photos → ¬ has_embedding p →
         p ∈ (groupSimilarPhotos cos_sim thr photos).2.
Proof.
  intros Hnd. unfold groupSimilarPhotos, placed_ids.
  pose proof (filter_app_complement (λ p, has_embedding p) photos) as Hsplit.
  cbv beta in Hsplit.
  case_bool_decide as Hnone; cbn [fst snd].
  - apply nil_length_inv in Hnone. rewrite Hnone in Hsplit. simpl in Hsplit.
    rewrite js_sort_perm. split; [by rewrite Hsplit|].
    intros p Hp Hemb. rewrite js_sort_perm. by apply list_elem_of_filter.
  - destruct (outer_loop _ _ _ _ _ _) as [G U] eqn:Hrun. cbn [fst snd].
    assert (Hnd' : NoDup (Photo.id <$> filter (λ p, has_embedding p) photos)).
    { eapply sublist_NoDup; [exact Hnd|apply fmap_sublist, sublist_filter]. }
    pose proof Hrun as (G2 & U2 & HG & HU & Hsub & Hperm)%outer_loop_perm; [|done].
    rewrite app_nil_l in HG, HU. subst G2 U2.
    rewrite filter_unmarked_empty in Hperm by done.
    rewrite fold_push_unembedded; [|done|].
    + rewrite !js_sort_perm. split.
      * by rewrite fmap_app, app_assoc, Hperm, <- fmap_app, Hsplit.
      * intros p Hp Hemb. rewrite js_sort_perm, elem_of_app. right.
        by apply list_elem_of_filter.
    + intros p Hp Hemb (u & Hid & Hu)%list_elem_of_fmap.
      apply sublist_subseteq in Hsub. apply Hsub in Hu.
      apply list_elem_of_filter in Hu as [Hue Hu].
      assert (p = u) as -> by (by apply (NoDup_fmap_inj_on Photo.id photos)).
      by apply Hemb.
Qed.
End GrouperFacts.

(** ** Properties of the grouping result *)

Section GrouperClaims.
Variable cos_sim : list Q → list Q → Q.
Variable thr : Q.

(** Claim C3. For an input list with pairwise distinct ids, the ids held by the
    returned groups together with the ids of [uniquePhotos] are a rearrangement
    of the input ids, so every input id is placed exactly once and none twice;
    and every photo whose embedding is absent or empty is in [uniquePhotos]. *)
Theorem groupSimilarPhotos_partition (photos : list Photo.t) :
  NoDup (Photo.id <$> photos) →
  let r := groupSimilarPhotos cos_sim thr photos in
  placed_ids r ≡ₚ Photo.id <$> photos
  ∧ NoDup (placed_ids r)
  ∧ ∀ p, p ∈ photos → ¬ has_embedding p → p ∈ r.2.
Proof.
  intros Hnd r. subst r.
  destruct (groupSimilarPhotos_placed cos_sim thr photos Hnd) as [Hperm Hun].
  split_and!; [done| by rewrite Hperm |done].
Qed.


(** The [date] of every returned group is the [dateCreated] field of its first
    photo, that is the file's modification time. *)
Lemma group_date_is_top_dateCreated (photos : list Photo.t) :
  Forall group_date_is_dateCreated (groupSimilarPhotos cos_sim thr photos).1.
Proof.
  apply groupSimilarPhotos_groups.
  intros photoA rest P cur m P' _ _ Hlen.
  unfold group_date_is_dateCreated, finalize_group.
  cbn [PhotoGroup.photos PhotoGroup.date].
  pose proof (js_sort_length by_quality_desc cur) as Hl.
  destruct (js_sort by_quality_desc cur) as [|top sorted]; [simpl in Hl; lia|].
  by exists top.
Qed.

(** Where capture date and [dateCreated] agree on the input, every group is
    dated by the capture date of its first photo. *)
Lemma group_dates_when_capture_is_created (photos : list Photo.t) :
  Forall (λ p, capture_date p = Photo.dateCreated p) photos →
  Forall group_date_is_capture_date (groupSimilarPhotos cos_sim thr photos).1.
Proof.
  intros Hdates.
  assert (Forall (λ g, group_date_is_dateCreated g
                       ∧ PhotoGroup.photos g ⊆ photos)
            (groupSimilarPhotos cos_sim thr photos).1) as Hall.
  { apply groupSimilarPhotos_groups.
    intros photoA rest P cur m P' Hsuf Hinner Hlen.
    apply inner_loop_spec in Hinner as (added & -> & Hsub & _).
    unfold group_date_is_dateCreated, finalize_group.
    cbn [PhotoGroup.photos PhotoGroup.date]. split.
    - pose proof (js_sort_length by_quality_desc ([photoA] ++ added)) as Hl.
      destruct (js_sort by_quality_desc _) as [|top sorted]; [simpl in *; lia|].
      by exists top.
    - intros p. rewrite js_sort_perm. intros Hp.
      assert (p ∈ filter (λ p, has_embedding p) photos) as Hf.
      { destruct Hsuf as [k ->]. rewrite elem_of_app. right.
        apply elem_of_cons in Hp as [->|Hp]; [by left|right].
        by eapply sublist_subseteq. }
      by apply list_elem_of_filter in Hf as [_ ?]. }
  eapply Forall_impl; [exact Hall|].
  intros g [(top & Htop & Hdate) Hsub]. exists top. split; [done|].
  rewrite Hdate. symmetry.
  apply (proj1 (Forall_forall _ _) Hdates top).
  apply Hsub. destruct (PhotoGroup.photos g); [done|]. injection Htop as ->. by left.
Qed.



(** Claim C10. For a threshold of at most 1, every returned group records the
    threshold it was built with, and its [similarity] lies between that
    threshold and 1. *)
Theorem group_similarity_bounds (photos : list Photo.t) :
  (thr <= 1)%Q →
  Forall (λ g, PhotoGroup.similarityThreshold g = thr
               ∧ (PhotoGroup.similarityThreshold g <= PhotoGroup.similarity g)%Q
               ∧ (PhotoGroup.similarity g <= 1)%Q)
    (groupSimilarPhotos cos_sim thr photos).1.
Proof.
  intros Hthr. apply groupSimilarPhotos_groups.
  intros photoA rest P cur m P' _ Hinner _.
  apply inner_loop_min in Hinner as [Hlo Hhi]; [|done|apply Qle_refl].
  by unfold finalize_group.
Qed.
End GrouperClaims.

(** ** The three-photo scenario *)

Lemma has_embedding_Some (p : Photo.t) (e : list Q) :
  Photo.embedding p = Some e → e ≠ [] → has_embedding p = true.
Proof.
  intros He Hne. unfold has_embedding. rewrite He.
  apply bool_decide_eq_true. destruct e; [done|simpl; lia].
Qed.

Lemma js_sort_singleton {A} (cmp : A → A → Z) (x : A) : js_sort cmp [x] = [x].
Proof. done. Qed.

Lemma scenario_groups :
  groupSimilarPhotos sim0 (7 # 10) [photoA0; photoB0; photoC0]
  = ([finalize_group photoA0 [photoA0; photoB0] (8 # 10) (7 # 10)], [photoC0]).
Proof. by vm_compute. Qed.

(** Claim C1 as worded fails on the scenario: C is compared with the anchor A
    only, stays out of the group and lands in [uniquePhotos]. *)
Lemma chained_group_claim_fails :
  (sim0 [1%Q] [2%Q] == 8 # 10)%Q ∧ (sim0 [2%Q] [3%Q] == 75 # 100)%Q
  ∧ (sim0 [1%Q] [3%Q] == 5 # 10)%Q
  ∧ ¬ chained_group_claim sim0 photoA0 photoB0 photoC0.
Proof.
  split_and!; [done..|].
  unfold chained_group_claim. rewrite scenario_groups. cbn [fst snd].
  intros (g & _ & _ & HC). apply HC. vm_compute. left.
Qed.

Section Scenario.
Variable cos_sim : list Q → list Q → Q.

(** Claim C1, amended. With threshold 0.7 and three embedded photos A, B, C of
    distinct ids given in that order, with sim(A,B)=0.8, sim(B,C)=0.75 and
    sim(A,C)=0.5, the result has exactly one group, whose members are A and B,
    and [uniquePhotos] is C alone. *)
Theorem anchor_only_scenario (A B C : Photo.t) (ea eb ec : list Q) :
  Photo.embedding A = Some ea → Photo.embedding B = Some eb →
  Photo.embedding C = Some ec →
  ea ≠ [] → eb ≠ [] → ec ≠ [] →
  Photo.id A ≠ Photo.id B → Photo.id A ≠ Photo.id C → Photo.id B ≠ Photo.id C →
  (cos_sim ea eb == 8 # 10)%Q → (cos_sim eb ec == 75 # 100)%Q →
  (cos_sim ea ec == 5 # 10)%Q →
  ∃ g, groupSimilarPhotos cos_sim (7 # 10) [A; B; C] = ([g], [C])
       ∧ (∀ x, x ∈ group_ids g ↔ x ∈ [Photo.id A; Photo.id B]).
Proof.
  intros HA HB HC Hea Heb Hec HAB HAC HBC Hab Hbc Hac.
  pose proof (has_embedding_Some _ _ HA Hea) as HeA.
  pose proof (has_embedding_Some _ _ HB Heb) as HeB.
  pose proof (has_embedding_Some _ _ HC Hec) as HeC.
  assert (Hin : Qle_bool (7 # 10) (cos_sim ea eb) = true).
  { apply Qle_bool_iff. by rewrite Hab. }
  assert (Hout : Qle_bool (7 # 10) (cos_sim ea ec) = false).
  { apply not_true_is_false. rewrite Qle_bool_iff, Hac. by intros ?. }
  exists (finalize_group A [A; B] (Qmin 1 (cos_sim ea eb)) (7 # 10)).
  split.
  - unfold groupSimilarPhotos.
    assert (Hall : filter (λ p, has_embedding p) [A; B; C] = [A; B; C]).
    { rewrite !filter_cons_True, filter_nil; [done|by rewrite ?HeA, ?HeB, ?HeC..]. }
    rewrite Hall. cbn [length]. rewrite bool_decide_eq_false_2 by done.
    cbn [outer_loop inner_loop].
    rewrite HA, HB, HC.
    rewrite (bool_decide_eq_false_2 (Photo.id A ∈ _)) by set_solver.
    rewrite (bool_decide_eq_false_2 (Photo.id B ∈ _)) by set_solver.
    rewrite Hin.
    rewrite (bool_decide_eq_false_2 (Photo.id C ∈ _)) by set_solver.
    rewrite Hout. cbn [app length].
    rewrite (bool_decide_eq_true_2 (1 < 2)%nat) by lia.
    rewrite (bool_decide_eq_true_2 (Photo.id B ∈ _)) by set_solver.
    rewrite (bool_decide_eq_false_2 (Photo.id C ∈ _)) by set_solver.
    rewrite (bool_decide_eq_false_2 (1 < 1)%nat) by lia.
    cbn [fold_left]. unfold push_unembedded. rewrite HeA, HeB, HeC.
    cbn [negb andb]. by rewrite !js_sort_singleton.
  - intros x. unfold group_ids, finalize_group. cbn [PhotoGroup.photos].
    by rewrite js_sort_perm.
Qed.
End Scenario.

Lemma anchor_only_scenario_witness :
  ∃ g, groupSimilarPhotos sim0 (7 # 10) [photoA0; photoB0; photoC0] = ([g], [photoC0])
       ∧ (∀ x, x ∈ group_ids g ↔ x ∈ [Photo.id photoA0; Photo.id photoB0]).
Proof.
  apply (anchor_only_scenario sim0 photoA0 photoB0 photoC0 [1%Q] [2%Q] [3%Q]);
    by vm_compute.
Defined.

(** ** The quality scorer *)

(** *** Operations that do not produce NaN *)

Section RoundingNotNaN.
Variables prec emax : Z.

Lemma iter_pos_invariant {A} (P : A → Prop) (f : A → A) (n : positive) (x : A) :
  (∀ y, P y → P (f y)) → P x → P (SpecFloat.iter_pos f n x).
Proof.
  intros Hf. revert x. induction n as [n IH|n IH|]; intros x Hx; cbn [SpecFloat.iter_pos]; auto.
Qed.

Lemma shr_1_nonneg (mrs : shr_record) : 0 ≤ shr_m mrs → 0 ≤ shr_m (shr_1 mrs).
Proof. destruct mrs as [m r s]. destruct m as [|[p|p|]|[p|p|]]; cbn; lia. Qed.

Lemma shr_nonneg (mrs : shr_record) (e n : Z) :
  0 ≤ shr_m mrs → 0 ≤ shr_m (shr mrs e n).1.
Proof.
  intros Hm. destruct n as [|p|p]; cbn [shr fst]; [done| |done].
  apply (iter_pos_invariant (λ r, 0 ≤ shr_m r)); [apply shr_1_nonneg|done].
Qed.

Lemma shr_fexp_nonneg (m e : Z) (l : location) :
  0 ≤ m → 0 ≤ shr_m (shr_fexp prec emax m e l).1.
Proof.
  intros Hm. unfold shr_fexp. apply shr_nonneg. by destruct l as [|[]].
Qed.

Lemma round_nearest_even_nonneg (m : Z) (l : location) :
  0 ≤ m → 0 ≤ round_nearest_even m l.
Proof.
  intros Hm. destruct l as [|[]]; cbn [round_nearest_even]; try done; [|lia].
  destruct (Z.even m); lia.
Qed.

Lemma binary_round_aux_not_nan (sx : bool) (mx ex : Z) (lx : location) :
  0 ≤ mx → binary_round_aux prec emax sx mx ex lx ≠ S754_nan.
Proof.
  intros Hm. unfold binary_round_aux.
  pose proof (shr_fexp_nonneg mx ex lx Hm) as H1.
  destruct (shr_fexp prec emax mx ex lx) as [mrs' e']. cbn [fst] in H1.
  pose proof (shr_fexp_nonneg _ e' loc_Exact
                (round_nearest_even_nonneg _ (loc_of_shr_record mrs') H1)) as H2.
  destruct (shr_fexp prec emax _ e' loc_Exact) as [mrs'' e'']. cbn [fst] in H2.
  destruct (shr_m mrs'') as [|m|m]; [done| |lia].
  by destruct (e'' <=? emax - prec).
Qed.

Lemma binary_normalize_not_nan (m e : Z) (szero : bool) :
  binary_normalize prec emax m e szero ≠ S754_nan.
Proof.
  destruct m as [|p|p]; cbn [binary_normalize]; [done| |];
    unfold binary_round; destruct (shl_align _ _ _) as [mz ez];
    by apply binary_round_aux_not_nan.
Qed.
End RoundingNotNaN.

Lemma mul_finite_not_nan (x : Number.t) (s : bool) (m : positive) (e : Z) :
  x ≠ S754_nan → Number.mul x (S754_finite s m e) ≠ S754_nan.
Proof.
  intros Hx. destruct x as [sx|sx| |sx mx ex]; [done|done|done|].
  unfold Number.mul. cbn [SFmul]. by apply binary_round_aux_not_nan.
Qed.

Lemma add_finite_not_nan (x : Number.t) (s : bool) (m : positive) (e : Z) :
  x ≠ S754_nan → Number.add x (S754_finite s m e) ≠ S754_nan.
Proof.
  intros Hx. destruct x as [sx|sx| |sx mx ex]; [done|done|done|].
  unfold Number.add. cbn [SFadd]. apply binary_normalize_not_nan.
Qed.

Lemma div_finite_not_nan (x : Number.t) (s : bool) (m : positive) (e : Z) :
  x ≠ S754_nan → Number.div x (S754_finite s m e) ≠ S754_nan.
Proof.
  intros Hx. destruct x as [sx|sx| |sx mx ex]; [done|done|done|].
  unfold Number.div. cbn [SFdiv]. unfold SFdiv_core_binary.
  set (m' := match _ - _ - _ with Z0 => _ | Zpos _ => _ | Zneg _ => _ end).
  assert (0 ≤ m') as Hm'.
  { subst m'. destruct (_ - _ - _) as [|p|p]; [lia| |lia].
    apply Z.shiftl_nonneg. lia. }
  pose proof (Z.div_pos m' (Z.pos m) Hm' ltac:(lia)) as Hq.
  unfold Z.div in Hq. destruct (Z.div_eucl m' (Z.pos m)) as [q r].
  by apply binary_round_aux_not_nan.
Qed.

Lemma scaled_nan (rawScore : Number.t) :
  scaled rawScore = S754_nan ↔ rawScore = S754_nan.
Proof.
  split; [|by intros ->].
  intros Hnan. destruct rawScore as [s|s| |s m e] eqn:Hraw; [| |done|];
    exfalso; revert Hnan; unfold scaled.
  all: change (Number.of_Z 15) with (S754_finite false 8444249301319680 (-49)).
  all: change (Number.of_Z 1) with (S754_finite false 4503599627370496 (-52)).
  all: change (Number.of_Z 2) with (S754_finite false 4503599627370496 (-51)).
  all: change (Number.of_Z 100) with (S754_finite false 7036874417766400 (-46)).
  all: by apply mul_finite_not_nan, div_finite_not_nan, add_finite_not_nan,
         mul_finite_not_nan.
Qed.

(** *** Rounding and clamping *)

Lemma clamp_min_max (n : Z) : Z.max 0 (Z.min 100 n) = clamp 0 100 n.
Proof.
  unfold clamp. destruct (Z.ltb_spec n 0); destruct (Z.ltb_spec 100 n); lia.
Qed.

Lemma math_round_to_Q (x : Number.t) (q : Q) :
  Number.to_Q x = Some q → math_round x = Integer (round_half_up q).
Proof.
  destruct x as [s|s| |s m e]; cbn [Number.to_Q math_round]; intros [= <-]; done.
Qed.

(** The result of line 158 is NaN exactly for a NaN raw score; otherwise it is
    an integer from 0 to 100: the clamp of the integer nearest to [scaled]. *)
Lemma calibrate_cases (rawScore : Number.t) :
  (calibrate rawScore = NotANumber ↔ rawScore = S754_nan)
  ∧ (rawScore ≠ S754_nan →
     ∃ n, calibrate rawScore = Integer n ∧ 0 ≤ n ≤ 100
          ∧ (∀ q, Number.to_Q (scaled rawScore) = Some q →
                  n = clamp 0 100 (round_half_up q))
          ∧ (scaled rawScore = S754_infinity false → n = 100)
          ∧ (scaled rawScore = S754_infinity true → n = 0)).
Proof.
  destruct (scaled_nan rawScore) as [Hnan1 Hnan2]. unfold calibrate.
  destruct (scaled rawScore) as [s|s| |s m e] eqn:Hv;
    cbn [math_round math_min math_max Number.to_Q].
  - split; [split; [done|by intros ?%Hnan2]|]. intros _. exists 0.
    split_and!; [done|lia|lia| |done|done]. by intros q [= <-].
  - split; [split; [by destruct s|by intros ?%Hnan2]|]. intros _.
    destruct s; [exists 0|exists 100];
      (split_and!; [done|lia|lia|done|done|done]).
  - split; [split; [by intros _; apply Hnan1|done]|].
    intros Hraw. destruct Hraw. by apply Hnan1.
  - split; [split; [done|by intros ?%Hnan2]|]. intros _.
    eexists. split; [reflexivity|]. split_and!; [lia|lia| |done|done].
    intros q [= <-]. apply clamp_min_max.
Qed.

Section ScorerFacts.
Variable cos_sim : list Number.t → list Number.t → option Number.t.

(** When no call throws, a loop returns the similarities added to the start
    value from the left. *)
Lemma total_similarity_sum (e : list Number.t) (rows : list (list Number.t))
    (sims : list Number.t) (total : Number.t) :
  Forall2 (λ row s, cos_sim e row = Some s) rows sims →
  total_similarity cos_sim e rows total = Some (fold_left Number.add sims total).
Proof.
  intros Hall. revert total.
  induction Hall as [|row s rows sims Hs _ IH]; intros total;
    cbn [total_similarity fold_left]; [done|].
  rewrite Hs. cbn [mbind option_bind]. apply IH.
Qed.

Lemma quality_is_calibrate (embedding : list Number.t)
    (positiveEmbeddings negativeEmbeddings : list (list Number.t))
    (positiveSims negativeSims : list Number.t) :
  embedding ≠ [] →
  Forall2 (λ row s, cos_sim embedding row = Some s) positiveEmbeddings positiveSims →
  Forall2 (λ row s, cos_sim embedding row = Some s) negativeEmbeddings negativeSims →
  analyzeImage_quality cos_sim (Some embedding)
    (Some (positiveEmbeddings, negativeEmbeddings))
  = calibrate (Number.sub (average positiveSims) (average negativeSims)).
Proof.
  intros Hne HP HN. unfold analyzeImage_quality, try_quality.
  rewrite bool_decide_eq_true_2 by (destruct embedding; [done|simpl; lia]).
  rewrite (total_similarity_sum _ _ _ _ HP), (total_similarity_sum _ _ _ _ HN).
  cbn [mbind option_bind]. unfold average, dims0.
  by rewrite (Forall2_length _ _ _ HP), (Forall2_length _ _ _ HN).
Qed.

(** Claim C7, amended. With a non-empty image embedding and no throwing call,
    the quality is line 158 applied, in binary64 arithmetic, to the difference
    of the two averages, each a sum from the left divided by the row count.
    When that difference is not NaN, the quality is an integer from 0 to 100:
    the clamp of the integer nearest (halves up) to the number handed to
    [Math.round]. A difference of 0.8 gives 100. *)
Theorem quality_score_formula (embedding : list Number.t)
    (positiveEmbeddings negativeEmbeddings : list (list Number.t))
    (positiveSims negativeSims : list Number.t) :
  embedding ≠ [] →
  Forall2 (λ row s, cos_sim embedding row = Some s) positiveEmbeddings positiveSims →
  Forall2 (λ row s, cos_sim embedding row = Some s) negativeEmbeddings negativeSims →
  let raw := Number.sub (average positiveSims) (average negativeSims) in
  let quality :=
    analyzeImage_quality cos_sim (Some embedding)
      (Some (positiveEmbeddings, negativeEmbeddings)) in
  quality = math_max (Integer 0) (math_min (Integer 100) (math_round (scaled raw)))
  ∧ (raw ≠ S754_nan →
     ∃ n, quality = Integer n ∧ 0 ≤ n ≤ 100
          ∧ (∀ q, Number.to_Q (scaled raw) = Some q →
                  n = clamp 0 100 (round_half_up q))
          ∧ (scaled raw = S754_infinity false → n = 100)
          ∧ (scaled raw = S754_infinity true → n = 0))
  ∧ (raw = decimal 8 10 → quality = Integer 100).
Proof.
  intros Hne HP HN raw quality.
  assert (Hq : quality = calibrate raw) by (by apply quality_is_calibrate).
  rewrite Hq. split_and!.
  - done.
  - apply calibrate_cases.
  - intros ->. by vm_compute.
Qed.
End ScorerFacts.

(** ** Array primitives *)

Lemma includes_spec (l : list string) (x : string) : includes l x = true ↔ x ∈ l.
Proof. unfold includes. apply bool_decide_eq_true. Qed.

Lemma includes_false (l : list string) (x : string) : includes l x = false ↔ x ∉ l.
Proof. unfold includes. apply bool_decide_eq_false. Qed.

Lemma indexOf_spec (l : list string) (x : string) :
  ((x ∉ l) ∧ indexOf l x = -1)
  ∨ (∃ l1 l2, l = l1 ++ x :: l2 ∧ (x ∉ l1) ∧ indexOf l x = Z.of_nat (length l1)).
Proof.
  induction l as [|y l IH]; cbn [indexOf].
  - left. split; [apply not_elem_of_nil|done].
  - case_bool_decide as Hy.
    + right. exists [], l. subst y. split_and!; [done|apply not_elem_of_nil|done].
    + destruct IH as [[Hx ->]|(l1 & l2 & -> & Hx & ->)].
      * left. split; [|done]. rewrite not_elem_of_cons. by split; [congruence|].
      * right. exists (y :: l1), l2.
        destruct (Z.ltb_spec (Z.of_nat (length l1)) 0) as [?|_]; [lia|].
        split_and!; [done| |simpl; lia].
        rewrite not_elem_of_cons. by split; [congruence|].
Qed.

Lemma array_from_set_push (l acc : list string) (x : string) :
  x ∈ fold_left set_push l acc ↔ x ∈ acc ∨ x ∈ l.
Proof.
  revert acc. induction l as [|y l IH]; intros acc; cbn [fold_left].
  - rewrite elem_of_nil. tauto.
  - rewrite IH, elem_of_cons. unfold set_push.
    destruct (includes acc y) eqn:Hy.
    + apply includes_spec in Hy. naive_solver.
    + rewrite elem_of_app, list_elem_of_singleton. tauto.
Qed.

Lemma array_from_set_elem_of (l : list string) (x : string) :
  x ∈ array_from_set l ↔ x ∈ l.
Proof. unfold array_from_set. rewrite array_from_set_push, elem_of_nil. tauto. Qed.

Lemma js_slice0_take {A} (l : list A) (i : Z) :
  0 ≤ i → js_slice0 l i = take (Z.to_nat i) l.
Proof.
  intros Hi. unfold js_slice0.
  by destruct (Z.ltb_spec i 0) as [?|_]; [lia|].
Qed.

Lemma js_index_lookup {A} (l : list A) (i : Z) :
  0 ≤ i → js_index l i = l !! Z.to_nat i.
Proof.
  intros Hi. unfold js_index.
  by destruct (Z.ltb_spec i 0) as [?|_]; [lia|].
Qed.

(** ** History *)

Lemma push_history_take (s : AppState.t) (e : HistoryEntry.t) :
  history_wf s →
  push_history s e
  = take (Z.to_nat (AppState.currentHistoryIndex s + 1)) (AppState.history s) ++ [e].
Proof. intros [Hlo Hhi]. unfold push_history. rewrite js_slice0_take; [done|lia]. Qed.

Lemma push_history_length (s : AppState.t) (e : HistoryEntry.t) :
  history_wf s →
  Z.of_nat (length (push_history s e)) = AppState.currentHistoryIndex s + 2.
Proof.
  intros Hwf. rewrite push_history_take by done. destruct Hwf as [Hlo Hhi].
  rewrite length_app, length_take. simpl. lia.
Qed.

Lemma push_history_last (s : AppState.t) (e : HistoryEntry.t) :
  history_wf s →
  js_index (push_history s e) (AppState.currentHistoryIndex s + 1) = Some e.
Proof.
  intros Hwf. rewrite push_history_take by done. destruct Hwf as [Hlo Hhi].
  rewrite js_index_lookup by lia.
  rewrite lookup_app_r; rewrite length_take; [|lia].
  replace (_ - _)%nat with 0%nat by lia. done.
Qed.

Lemma push_history_before (s : AppState.t) (e : HistoryEntry.t) (i : Z) :
  history_wf s → 0 ≤ i ≤ AppState.currentHistoryIndex s →
  js_index (push_history s e) i = js_index (AppState.history s) i.
Proof.
  intros Hwf Hi. rewrite push_history_take by done. destruct Hwf as [Hlo Hhi].
  rewrite !js_index_lookup by lia.
  rewrite lookup_app_l by (rewrite length_take; lia).
  apply lookup_take_lt. lia.
Qed.

(** The group and bulk selection cases end either with the input state or
    with a [commit]: split a run of the reducer accordingly. *)
Ltac selection_case Hred :=
  repeat match type of Hred with
         | context [find_group ?s ?g] => destruct (find_group s g)
         | context [if ?b then _ else _] => destruct b
         end;
  injection Hred as <-.

(** The states an appending transition produces. *)
Lemma appends_shape (now : Z) (s : AppState.t) (a : PhotoAction) (s' : AppState.t) :
  history_wf s → reducer now s a = Some s' → appends_history s a s' →
  AppState.history s'
  = push_history s (HistoryEntry.mk (AppState.selectedPhotos s') now)
  ∧ AppState.currentHistoryIndex s' = AppState.currentHistoryIndex s + 1.
Proof.
  intros Hwf Hred Happ. destruct a; cbn [reducer appends_history] in *.
  - destruct (best_ids groups) as [best|]; [|done]. cbn [mbind option_bind] in Hred.
    case_bool_decide as Hempty.
    { by apply nil_length_inv in Hempty. }
    injection Hred as <-. cbn [AppState.history AppState.currentHistoryIndex
                                AppState.selectedPhotos].
    split; [done|]. rewrite push_history_length by done. lia.
  - by injection Hred as <-.
  - by selection_case Hred.
  - by selection_case Hred.
  - by selection_case Hred.
  - by selection_case Hred.
  - done.
  - done.
Qed.

(** What an appending transition does to history, and what the first ingest
    does. *)
Lemma history_append_shape (now : Z) (s : AppState.t) (a : PhotoAction)
    (s' : AppState.t) :
  history_wf s → reducer now s a = Some s' →
  (appends_history s a s' →
   ∃ entry,
     AppState.history s'
     = take (Z.to_nat (AppState.currentHistoryIndex s + 1)) (AppState.history s)
       ++ [entry]
     ∧ HistoryEntry.selectedPhotos entry = AppState.selectedPhotos s'
     ∧ AppState.currentHistoryIndex s'
       = Z.of_nat (length (AppState.history s')) - 1)
  ∧ (∀ photo groups uniquePhotos,
       a = ADD_PHOTO_AND_UPDATE_GROUPS photo groups uniquePhotos →
       AppState.photos s = [] →
       ∃ entry, AppState.history s' = [entry]
                ∧ HistoryEntry.selectedPhotos entry = AppState.selectedPhotos s'
                ∧ AppState.currentHistoryIndex s' = 0).
Proof.
  intros Hwf Hred. split.
  - intros Happ. destruct (appends_shape _ _ _ _ Hwf Hred Happ) as [Hh Hi].
    eexists. rewrite Hh, Hi, push_history_length, push_history_take by done.
    split_and!; [done|done|lia].
  - intros photo groups uniquePhotos -> Hempty. cbn [reducer] in Hred.
    destruct (best_ids groups) as [best|]; [|done]. cbn [mbind option_bind] in Hred.
    rewrite Hempty in Hred. cbn [length] in Hred.
    rewrite bool_decide_eq_true_2 in Hred by done.
    injection Hred as <-. by eexists.
Qed.

(** Claim C6. From a state whose index is at least 0 and points at an entry
    holding the current selection, after one action that appends to history,
    UNDO gives back the former selection and REDO after that UNDO gives back
    the selection the action had produced. *)
Theorem undo_then_redo (now now1 now2 : Z) (s : AppState.t) (a : PhotoAction)
    (s1 : AppState.t) (e : HistoryEntry.t) :
  0 ≤ AppState.currentHistoryIndex s →
  js_index (AppState.history s) (AppState.currentHistoryIndex s) = Some e →
  HistoryEntry.selectedPhotos e = AppState.selectedPhotos s →
  reducer now s a = Some s1 → appends_history s a s1 →
  ∃ s2 s3,
    reducer now1 s1 UNDO = Some s2
    ∧ AppState.selectedPhotos s2 = AppState.selectedPhotos s
    ∧ reducer now2 s2 REDO = Some s3
    ∧ AppState.selectedPhotos s3 = AppState.selectedPhotos s1.
Proof.
  intros Hidx He Hsel Hred Happ.
  assert (Hwf : history_wf s).
  { split; [lia|]. rewrite js_index_lookup in He by done.
    apply lookup_lt_Some in He. lia. }
  destruct (appends_shape _ _ _ _ Hwf Hred Happ) as [Hh Hi].
  assert (Hundo : reducer now1 s1 UNDO
                  = Some (restore s1 e (AppState.currentHistoryIndex s))).
  { cbn [reducer]. rewrite Hi, Hh.
    destruct (Z.leb_spec (AppState.currentHistoryIndex s + 1) 0) as [?|_]; [lia|].
    replace (AppState.currentHistoryIndex s + 1 - 1)
      with (AppState.currentHistoryIndex s) by lia.
    rewrite push_history_before by (done || lia). by rewrite He. }
  eexists _, _. split; [exact Hundo|]. split; [done|].
  cbn [reducer restore AppState.history AppState.currentHistoryIndex
       AppState.selectedPhotos].
  rewrite Hh, push_history_length by done.
  destruct (Z.leb_spec (AppState.currentHistoryIndex s + 2 - 1)
              (AppState.currentHistoryIndex s)) as [?|_]; [lia|].
  rewrite push_history_last by done. cbn [mbind option_bind]. done.
Qed.

(** ** Toggling and the selection flags *)

Lemma toggled_spec (sel : list string) (x : string) :
  ((x ∉ sel) ∧ toggled sel x = sel ++ [x])
  ∨ (∃ l1 l2, sel = l1 ++ x :: l2 ∧ (x ∉ l1) ∧ toggled sel x = l1 ++ l2).
Proof.
  unfold toggled.
  destruct (indexOf_spec sel x) as [[Hx ->]|(l1 & l2 & -> & Hx & ->)].
  - left. done.
  - right. exists l1, l2. split_and!; [done..|].
    destruct (Z.eqb_spec (Z.of_nat (length l1)) (-1)) as [?|_]; [lia|].
    rewrite Nat2Z.id. apply delete_middle.
Qed.

Lemma toggled_other (sel : list string) (x y : string) :
  y ≠ x → y ∈ toggled sel x ↔ y ∈ sel.
Proof.
  intros Hne.
  destruct (toggled_spec sel x) as [[_ ->]|(l1 & l2 & -> & _ & ->)].
  - rewrite elem_of_app, list_elem_of_singleton. naive_solver.
  - rewrite !elem_of_app, elem_of_cons. naive_solver.
Qed.

Lemma toggled_self (sel : list string) (x : string) :
  (occurrences x sel ≤ 1)%nat → x ∈ toggled sel x ↔ x ∉ sel.
Proof.
  intros Hocc.
  destruct (toggled_spec sel x) as [[Hx ->]|(l1 & l2 & -> & Hx & ->)].
  - rewrite elem_of_app, list_elem_of_singleton. naive_solver.
  - unfold occurrences in Hocc.
    rewrite filter_app, filter_cons_True, length_app in Hocc by done.
    simpl in Hocc.
    assert (Hl2 : x ∉ l2).
    { intros Hin. assert (x ∈ filter (λ y, y = x) l2) as Hf
        by (by apply list_elem_of_filter).
      destruct (filter (λ y, y = x) l2); [by apply elem_of_nil in Hf|].
      simpl in Hocc. lia. }
    rewrite !elem_of_app, elem_of_cons. naive_solver.
Qed.

Lemma includes_toggled_self (sel : list string) (x : string) :
  (occurrences x sel ≤ 1)%nat →
  includes (toggled sel x) x = negb (includes sel x).
Proof.
  intros Hocc. unfold includes. rewrite <- bool_decide_not.
  apply bool_decide_ext. by apply toggled_self.
Qed.

Lemma includes_toggled_other (sel : list string) (x y : string) :
  y ≠ x → includes (toggled sel x) y = includes sel y.
Proof. intros Hne. apply bool_decide_ext. by apply toggled_other. Qed.

Lemma includes_array_from_set (l : list string) (x : string) :
  includes (array_from_set l) x = includes l x.
Proof. apply bool_decide_ext, array_from_set_elem_of. Qed.

Lemma includes_app (l1 l2 : list string) (x : string) :
  includes (l1 ++ l2) x = includes l1 x || includes l2 x.
Proof.
  unfold includes. rewrite <- bool_decide_or. apply bool_decide_ext, elem_of_app.
Qed.

Lemma includes_filter_excluded (l1 l2 : list string) (x : string) :
  includes (filter (λ id, ¬ includes l2 id) l1) x
  = includes l1 x && negb (includes l2 x).
Proof.
  unfold includes. rewrite <- bool_decide_not, <- bool_decide_and.
  apply bool_decide_ext. rewrite list_elem_of_filter, bool_decide_spec. tauto.
Qed.

(** Claim C2, amended. TOGGLE_SELECT_PHOTO on an id that no photo carries
    leaves [photos], [groups] and [uniquePhotos] as they are but is not a
    no-op: the id is appended to the selection when absent and its first
    occurrence is removed otherwise, history is cut after the current index
    and gets one entry with the new selection, and the index moves on by one. *)
Theorem toggle_unknown_id (now : Z) (s : AppState.t) (photoId : string) :
  photoId ∉ Photo.id <$> AppState.photos s →
  ∃ s', reducer now s (TOGGLE_SELECT_PHOTO photoId) = Some s'
        ∧ AppState.photos s' = AppState.photos s
        ∧ AppState.groups s' = AppState.groups s
        ∧ AppState.uniquePhotos s' = AppState.uniquePhotos s
        ∧ (photoId ∉ AppState.selectedPhotos s →
           AppState.selectedPhotos s' = AppState.selectedPhotos s ++ [photoId])
        ∧ (photoId ∈ AppState.selectedPhotos s →
           ∃ l1 l2, AppState.selectedPhotos s = l1 ++ photoId :: l2
                    ∧ (photoId ∉ l1)
                    ∧ AppState.selectedPhotos s' = l1 ++ l2)
        ∧ AppState.history s'
          = js_slice0 (AppState.history s) (AppState.currentHistoryIndex s + 1)
            ++ [HistoryEntry.mk (AppState.selectedPhotos s') now]
        ∧ AppState.currentHistoryIndex s' = AppState.currentHistoryIndex s + 1
        ∧ s' ≠ s.
Proof.
  intros Hunknown. eexists. split; [done|].
  cbn [commit AppState.photos AppState.groups AppState.uniquePhotos
       AppState.selectedPhotos AppState.history AppState.currentHistoryIndex].
  split_and!; try done.
  - induction (AppState.photos s) as [|p ps IH]; [done|].
    rewrite fmap_cons, not_elem_of_cons in Hunknown. destruct Hunknown as [Hp Hps].
    rewrite fmap_cons, IH by done.
    by rewrite bool_decide_eq_false_2 by congruence.
  - intros Hx.
    destruct (toggled_spec (AppState.selectedPhotos s) photoId)
      as [[_ ->]|(l1 & l2 & Heq & _ & _)]; [done|].
    destruct Hx. rewrite Heq, elem_of_app, elem_of_cons. auto.
  - intros Hx.
    destruct (toggled_spec (AppState.selectedPhotos s) photoId)
      as [[Hno _]|(l1 & l2 & ? & ? & ?)]; [by destruct Hno|]. by exists l1, l2.
  - intros Heq%(f_equal AppState.currentHistoryIndex).
    cbn [commit AppState.currentHistoryIndex] in Heq. lia.
Qed.

(** The flags follow the selection through every case of the reducer; a toggle
    needs its id to be listed at most once. *)
Lemma reducer_keeps_flags (now : Z) (s : AppState.t) (a : PhotoAction)
    (s' : AppState.t) :
  reducer now s a = Some s' →
  selection_consistent s →
  (∀ photoId, a = TOGGLE_SELECT_PHOTO photoId →
              (occurrences photoId (AppState.selectedPhotos s) ≤ 1)%nat) →
  selection_consistent s'.
Proof.
  unfold selection_consistent. intros Hred Hinv Hocc.
  assert (Hrestore : ∀ e i, selection_consistent (restore s e i)).
  { intros e i. unfold selection_consistent. cbn [restore AppState.photos
      AppState.selectedPhotos]. apply Forall_fmap, Forall_true. done. }
  destruct a; cbn [reducer] in Hred.
  - destruct (best_ids groups) as [best|]; [|done]. cbn [mbind option_bind] in Hred.
    assert (Hsel : ∀ h i, AppState.mk
              ((λ p, Photo.with_selected
                       (includes ((Photo.id <$> uniquePhotos) ++ best) (Photo.id p)) p)
                 <$> AppState.photos s ++ [photo])
              groups ((Photo.id <$> uniquePhotos) ++ best) uniquePhotos h i = s' →
            selection_consistent s').
    { intros h i <-. unfold selection_consistent.
      cbn [AppState.photos AppState.selectedPhotos].
      apply Forall_fmap, Forall_true. done. }
    destruct (bool_decide (length (AppState.photos s) = 0%nat));
      injection Hred as Hred; by eapply Hsel.
  - injection Hred as <-. cbn [commit AppState.photos AppState.selectedPhotos].
    apply Forall_fmap. eapply Forall_impl; [exact Hinv|].
    intros p Hp. unfold compose. cbn beta in *. case_bool_decide as Hid.
    + cbn [Photo.with_selected Photo.selected Photo.id]. rewrite Hp, Hid.
      by rewrite includes_toggled_self by (by apply Hocc).
    + by rewrite includes_toggled_other.
  - destruct (find_group s groupId) as [group|]; [|by injection Hred as <-].
    destruct (_ && _); injection Hred as <-; [done|].
    cbn [commit AppState.photos AppState.selectedPhotos].
    apply Forall_fmap. eapply Forall_impl; [exact Hinv|].
    intros p Hp. unfold compose. cbn beta in *.
    rewrite includes_array_from_set, includes_app.
    destruct (includes (Photo.id <$> PhotoGroup.photos group) (Photo.id p)) eqn:Hin;
      cbn [Photo.with_selected Photo.selected Photo.id]; rewrite Hin.
    + by rewrite orb_true_r.
    + by rewrite orb_false_r.
  - destruct (find_group s groupId) as [group|]; [|by injection Hred as <-].
    destruct (bool_decide _); injection Hred as <-; [done|].
    cbn [commit AppState.photos AppState.selectedPhotos].
    apply Forall_fmap. eapply Forall_impl; [exact Hinv|].
    intros p Hp. unfold compose. cbn beta in *.
    rewrite includes_filter_excluded.
    destruct (includes (Photo.id <$> PhotoGroup.photos group) (Photo.id p)) eqn:Hin;
      cbn [Photo.with_selected Photo.selected Photo.id]; rewrite Hin.
    + by rewrite andb_false_r.
    + by rewrite andb_true_r.
  - destruct (_ && _); injection Hred as <-; [done|].
    cbn [commit AppState.photos AppState.selectedPhotos].
    apply Forall_fmap, Forall_forall. intros p Hp. unfold compose.
    cbn [Photo.with_selected Photo.selected Photo.id].
    apply eq_sym, includes_spec. by apply list_elem_of_fmap_2.
  - destruct (bool_decide _); injection Hred as <-; [done|].
    cbn [commit AppState.photos AppState.selectedPhotos].
    apply Forall_fmap, Forall_true. done.
  - destruct (_ <=? _); [by injection Hred as <-|].
    destruct (js_index _ _) as [e|]; [|done]. injection Hred as <-. apply Hrestore.
  - destruct (_ <=? _); [by injection Hred as <-|].
    destruct (js_index _ _) as [e|]; [|done]. injection Hred as <-. apply Hrestore.
Qed.

(** Claim C4, amended. Every transition keeps the agreement between the
    [selected] flags and [selectedPhotos], provided that, when the action is
    TOGGLE_SELECT_PHOTO, the toggled id is listed at most once in the
    selection of the input state. *)
Theorem selection_flags_preserved (now : Z) (s : AppState.t) (a : PhotoAction)
    (s' : AppState.t) :
  reducer now s a = Some s' →
  selection_consistent s →
  (∀ photoId, a = TOGGLE_SELECT_PHOTO photoId →
              (occurrences photoId (AppState.selectedPhotos s) ≤ 1)%nat) →
  selection_consistent s'.
Proof. apply reducer_keeps_flags. Qed.

(** ** Reachable states *)

Lemma reducer_history_wf (now : Z) (s : AppState.t) (a : PhotoAction) (s' : AppState.t) :
  history_wf s → reducer now s a = Some s' → history_wf s'.
Proof.
  intros Hwf Hred.
  assert (Hcommit : ∀ sel photos, history_wf (commit now s sel photos)).
  { intros sel photos. unfold history_wf.
    cbn [commit AppState.history AppState.currentHistoryIndex].
    rewrite push_history_length by done. destruct Hwf. lia. }
  destruct a; cbn [reducer] in Hred.
  - destruct (best_ids groups) as [best|]; [|done]. cbn [mbind option_bind] in Hred.
    destruct (bool_decide _); injection Hred as <-; unfold history_wf;
      cbn [AppState.history AppState.currentHistoryIndex].
    + simpl. lia.
    + rewrite push_history_length by done. destruct Hwf. lia.
  - by injection Hred as <-.
  - by selection_case Hred.
  - by selection_case Hred.
  - by selection_case Hred.
  - by selection_case Hred.
  - destruct (Z.leb_spec (AppState.currentHistoryIndex s) 0); [by injection Hred as <-|].
    destruct (js_index _ _) as [e|]; [|done]. injection Hred as <-.
    destruct Hwf. unfold history_wf. cbn [restore AppState.history
      AppState.currentHistoryIndex]. lia.
  - destruct (Z.leb_spec (Z.of_nat (length (AppState.history s)) - 1)
                (AppState.currentHistoryIndex s)); [by injection Hred as <-|].
    destruct (js_index _ _) as [e|]; [|done]. injection Hred as <-.
    destruct Hwf. unfold history_wf. cbn [restore AppState.history
      AppState.currentHistoryIndex]. lia.
Qed.

(** Every state of the store has its index inside the history (or at [-1]). *)
Lemma reachable_history_wf (s : AppState.t) : reachable s → history_wf s.
Proof.
  induction 1 as [|now s a s' _ IH Hred].
  - unfold history_wf. simpl. lia.
  - by eapply reducer_history_wf.
Qed.

(** Claim C5. In every state of the store, a transition that appends to
    history (an ingest onto a non-empty photo list, or a selection action that
    is not a no-op) yields the input history cut after the current index plus
    one entry holding the output selection, with the output index on the last
    entry; an ingest onto an empty photo list yields a one-entry history and
    index 0. *)
Theorem history_append_discipline (now : Z) (s : AppState.t) (a : PhotoAction)
    (s' : AppState.t) :
  reachable s → reducer now s a = Some s' →
  (appends_history s a s' →
   ∃ entry,
     AppState.history s'
     = take (Z.to_nat (AppState.currentHistoryIndex s + 1)) (AppState.history s)
       ++ [entry]
     ∧ HistoryEntry.selectedPhotos entry = AppState.selectedPhotos s'
     ∧ AppState.currentHistoryIndex s'
       = Z.of_nat (length (AppState.history s')) - 1)
  ∧ (∀ photo groups uniquePhotos,
       a = ADD_PHOTO_AND_UPDATE_GROUPS photo groups uniquePhotos →
       AppState.photos s = [] →
       ∃ entry, AppState.history s' = [entry]
                ∧ HistoryEntry.selectedPhotos entry = AppState.selectedPhotos s'
                ∧ AppState.currentHistoryIndex s' = 0).
Proof.
  intros Hs. apply history_append_shape. by apply reachable_history_wf.
Qed.

(** The reducer throws only on an ingest that carries an empty group. *)
Lemma reducer_defined (now : Z) (s : AppState.t) (a : PhotoAction) :
  history_wf s →
  (∀ photo groups uniquePhotos,
     a = ADD_PHOTO_AND_UPDATE_GROUPS photo groups uniquePhotos →
     Forall (λ g, PhotoGroup.photos g ≠ []) groups) →
  is_Some (reducer now s a).
Proof.
  intros [Hlo Hhi] Hgroups. destruct a; cbn [reducer]; try done.
  - assert (is_Some (best_ids groups)) as [best ->].
    { apply mapM_is_Some. eapply Forall_impl; [by eapply Hgroups|].
      intros g Hg. unfold compose. cbn beta in Hg. revert Hg.
      destruct (PhotoGroup.photos g) as [|top ?]; [done|].
      intros _. by exists (Photo.id top). }
    cbn [mbind option_bind]. by destruct (bool_decide _).
  - destruct (find_group s groupId); [|done]. by destruct (_ && _).
  - destruct (find_group s groupId); [|done]. by destruct (bool_decide _).
  - by destruct (_ && _).
  - by destruct (bool_decide _).
  - destruct (Z.leb_spec (AppState.currentHistoryIndex s) 0); [done|].
    rewrite js_index_lookup by lia.
    destruct (lookup_lt_is_Some_2 (AppState.history s)
                (Z.to_nat (AppState.currentHistoryIndex s - 1))) as [e ->]; [lia|done].
  - destruct (Z.leb_spec (Z.of_nat (length (AppState.history s)) - 1)
                (AppState.currentHistoryIndex s)); [done|].
    rewrite js_index_lookup by lia.
    destruct (lookup_lt_is_Some_2 (AppState.history s)
                (Z.to_nat (AppState.currentHistoryIndex s + 1))) as [e ->]; [lia|done].
Qed.

Lemma state_one_ingested :
  addPhoto_dispatch sim0 0 initialState photoC0 = Some state_one.
Proof. by vm_compute. Qed.

Lemma state_dup_ingested :
  (s ← addPhoto_dispatch sim0 0 initialState photoD0;
   addPhoto_dispatch sim0 1 s photoD1) = Some state_dup.
Proof. by vm_compute. Qed.

(** ** Runs of the pipeline: distinct ids *)

Lemma NoDup_occurrences (x : string) (l : list string) :
  NoDup l → (occurrences x l ≤ 1)%nat.
Proof.
  unfold occurrences. induction 1 as [|y l Hy _ IH]; [simpl; lia|].
  rewrite filter_cons. case_decide as Hxy; [|done]. subst y.
  assert (filter (λ y, y = x) l = []) as ->; [|simpl; lia].
  destruct (filter (λ y, y = x) l) as [|z ?] eqn:Hf; [done|].
  assert (z ∈ filter (λ y, y = x) l) as [-> Hz]%list_elem_of_filter
    by (rewrite Hf; left).
  done.
Qed.

Lemma array_from_set_NoDup (l acc : list string) :
  NoDup acc → NoDup (fold_left set_push l acc).
Proof.
  revert acc. induction l as [|x l IH]; intros acc Hacc; cbn [fold_left]; [done|].
  apply IH. unfold set_push. destruct (includes acc x) eqn:Hx; [done|].
  apply includes_false in Hx. apply NoDup_app. split_and!; [done| |apply NoDup_singleton].
  intros y Hy ->%list_elem_of_singleton. done.
Qed.

Lemma toggled_NoDup (sel : list string) (x : string) :
  NoDup sel → NoDup (toggled sel x).
Proof.
  intros Hsel. destruct (toggled_spec sel x) as [[Hx ->]|(l1 & l2 & -> & _ & ->)].
  - apply NoDup_app. split_and!; [done| |apply NoDup_singleton].
    intros y Hy ->%list_elem_of_singleton. done.
  - eapply sublist_NoDup; [exact Hsel|].
    apply sublist_app; [done|]. by apply sublist_cons.
Qed.

Lemma js_slice0_Forall {A} (P : A → Prop) (l : list A) (i : Z) :
  Forall P l → Forall P (js_slice0 l i).
Proof. intros Hl. unfold js_slice0. destruct (i <? 0); by apply Forall_take. Qed.

Lemma js_index_elem_of {A} (l : list A) (i : Z) (x : A) :
  js_index l i = Some x → x ∈ l.
Proof.
  unfold js_index. destruct (i <? 0); [done|]. apply list_elem_of_lookup_2.
Qed.

Lemma best_ids_sublist (groups : list PhotoGroup.t) (best : list string) :
  best_ids groups = Some best → best `sublist_of` concat (group_ids <$> groups).
Proof.
  unfold best_ids. intros Hall%mapM_Some.
  induction Hall as [|g y groups best Hy _ IH]; [done|].
  rewrite fmap_cons. cbn [concat]. change (y :: best) with ([y] ++ best).
  apply sublist_app; [|done]. unfold group_ids.
  destruct (PhotoGroup.photos g) as [|top rest]; [done|].
  injection Hy as <-. rewrite fmap_cons. apply sublist_skip, sublist_nil_l.
Qed.

Lemma fmap_with_selected_ids (f : Photo.t → bool) (l : list Photo.t) :
  Photo.id <$> ((λ p, Photo.with_selected (f p) p) <$> l) = Photo.id <$> l.
Proof. rewrite <- list_fmap_compose. by apply list_fmap_ext. Qed.

Lemma commit_ids_distinct (now : Z) (s : AppState.t) (sel : list string)
    (photos : list Photo.t) :
  ids_distinct s → NoDup sel → Photo.id <$> photos = Photo.id <$> AppState.photos s →
  ids_distinct (commit now s sel photos).
Proof.
  intros (Hp & Hs & Hh) Hsel Hids. unfold ids_distinct, commit, push_history.
  cbn [AppState.photos AppState.selectedPhotos AppState.history].
  rewrite Hids. split_and!; [done..|].
  apply Forall_app. split; [by apply js_slice0_Forall|]. by constructor.
Qed.

Lemma restore_ids_distinct (s : AppState.t) (e : HistoryEntry.t) (i j : Z) :
  ids_distinct s → js_index (AppState.history s) j = Some e →
  ids_distinct (restore s e i).
Proof.
  intros (Hp & Hs & Hh) He%js_index_elem_of. unfold ids_distinct, restore.
  cbn [AppState.photos AppState.selectedPhotos AppState.history].
  rewrite fmap_with_selected_ids. split_and!; [done| |done].
  by eapply Forall_forall in Hh.
Qed.

(** Selection actions keep ids distinct. *)
Lemma reducer_ids_distinct (now : Z) (s : AppState.t) (a : PhotoAction)
    (s' : AppState.t) :
  (∀ photo groups uniquePhotos,
     a ≠ ADD_PHOTO_AND_UPDATE_GROUPS photo groups uniquePhotos) →
  reducer now s a = Some s' → ids_distinct s → ids_distinct s'.
Proof.
  intros Hsel Hred Hs. pose proof Hs as (Hp & Hsl & Hh).
  destruct a; cbn [reducer] in Hred.
  - by destruct (Hsel photo groups uniquePhotos).
  - injection Hred as <-. apply commit_ids_distinct; [done|by apply toggled_NoDup|].
    rewrite <- list_fmap_compose. apply list_fmap_ext. intros ? p _. cbn.
    by case_bool_decide.
  - selection_case Hred; try done.
    apply commit_ids_distinct; [done|by apply array_from_set_NoDup, NoDup_nil_2|].
    rewrite <- list_fmap_compose. apply list_fmap_ext. intros ? p _. cbn.
    by destruct (includes _ _).
  - selection_case Hred; try done.
    apply commit_ids_distinct; [done|by apply NoDup_filter|].
    rewrite <- list_fmap_compose. apply list_fmap_ext. intros ? p _. cbn.
    by destruct (includes _ _).
  - selection_case Hred; try done.
    apply commit_ids_distinct; [done|done|].
    rewrite <- list_fmap_compose. by apply list_fmap_ext.
  - selection_case Hred; try done.
    apply commit_ids_distinct; [done|apply NoDup_nil_2|].
    rewrite <- list_fmap_compose. by apply list_fmap_ext.
  - destruct (_ <=? _); [by injection Hred as <-|].
    destruct (js_index _ _) as [e|] eqn:He; [|done]. injection Hred as <-.
    by eapply restore_ids_distinct.
  - destruct (_ <=? _); [by injection Hred as <-|].
    destruct (js_index _ _) as [e|] eqn:He; [|done]. injection Hred as <-.
    by eapply restore_ids_distinct.
Qed.

(** An ingest of a photo with a fresh id keeps ids distinct. *)
Lemma addPhoto_ids_distinct (cos_sim : list Q → list Q → Q) (now : Z)
    (s : AppState.t) (photo : Photo.t) (s' : AppState.t) :
  Photo.id photo ∉ Photo.id <$> AppState.photos s →
  addPhoto_dispatch cos_sim now s photo = Some s' →
  ids_distinct s → ids_distinct s'.
Proof.
  intros Hfresh Hrun (Hp & Hsl & Hh). unfold addPhoto_dispatch in Hrun.
  assert (Hnd : NoDup (Photo.id <$> AppState.photos s ++ [photo])).
  { rewrite fmap_app. apply NoDup_app. split_and!; [done| |apply NoDup_singleton].
    intros y Hy ->%list_elem_of_singleton. done. }
  destruct (groupSimilarPhotos_placed cos_sim (7 # 10) _ Hnd) as [Hperm _].
  destruct (groupSimilarPhotos _ _ _) as [groups uniquePhotos].
  cbn [reducer] in Hrun.
  destruct (best_ids groups) as [best|] eqn:Hbest; [|done].
  cbn [mbind option_bind] in Hrun.
  assert (Hauto : NoDup ((Photo.id <$> uniquePhotos) ++ best)).
  { rewrite Permutation_app_comm. eapply sublist_NoDup.
    - rewrite <- Hperm in Hnd. exact Hnd.
    - unfold placed_ids. cbn [fst snd]. apply sublist_app; [|done].
      by apply best_ids_sublist. }
  destruct (bool_decide _); injection Hrun as <-; unfold ids_distinct;
    cbn [AppState.photos AppState.selectedPhotos AppState.history];
    rewrite fmap_with_selected_ids; (split_and!; [done|done|]).
  - by repeat constructor.
  - unfold push_history. apply Forall_app.
    split; [by apply js_slice0_Forall|]. by constructor.
Qed.

Section Pipeline.
Variable cos_sim : list Q → list Q → Q.

Lemma pipeline_ids_distinct (s : AppState.t) :
  pipeline_reachable cos_sim s → ids_distinct s.
Proof.
  induction 1 as [|now s photo s' _ IH Hfresh Hrun|now s a s' _ IH Hsel Hred].
  - unfold ids_distinct. simpl. split_and!; constructor.
  - by eapply addPhoto_ids_distinct.
  - by eapply reducer_ids_distinct.
Qed.
(** In the states that [addPhotos] and the selection commands reach, every
    photo's flag agrees with the selection. *)
Lemma pipeline_selection_consistent (s : AppState.t) :
  pipeline_reachable cos_sim s → selection_consistent s.
Proof.
  induction 1 as [|now s photo s' Hs IH Hfresh Hrun|now s a s' Hs IH Hsel Hred].
  - constructor.
  - unfold addPhoto_dispatch in Hrun.
    destruct (groupSimilarPhotos _ _ _) as [groups uniquePhotos].
    cbn [reducer] in Hrun. destruct (best_ids groups) as [best|]; [|done].
    cbn [mbind option_bind] in Hrun.
    destruct (bool_decide _); injection Hrun as <-; unfold selection_consistent;
      cbn [AppState.photos AppState.selectedPhotos];
      apply Forall_fmap, Forall_true; done.
  - apply pipeline_ids_distinct in Hs as (_ & Hnd & _).
    eapply reducer_keeps_flags; [exact Hred|exact IH|].
    intros photoId _. by apply NoDup_occurrences.
Qed.
End Pipeline.

(** ** Concrete runs *)

Lemma exif_groups :
  groupSimilarPhotos sim0 (7 # 10) [photoX0; photoY0]
  = ([finalize_group photoX0 [photoX0; photoY0] (8 # 10) (7 # 10)], []).
Proof. by vm_compute. Qed.

(** In the EXIF-reading variant the grouper is the same: two similar photos
    carrying an EXIF date form a group dated by the file's modification time
    of its first photo, not by its capture date. *)
Lemma exif_variant_group_date :
  Photo.dateCreated photoX0 = 2000 ∧ capture_date photoX0 = 1000
  ∧ PhotoGroup.date <$> (groupSimilarPhotos sim0 (7 # 10) [photoX0; photoY0]).1
    = [2000]
  ∧ ¬ Forall group_date_is_capture_date
        (groupSimilarPhotos sim0 (7 # 10) [photoX0; photoY0]).1.
Proof.
  split_and!; [done|done|by vm_compute|].
  rewrite exif_groups. cbn [fst]. intros Hall.
  apply Forall_cons in Hall as [(top & Htop & Hdate) _].
  vm_compute in Htop. injection Htop as <-. by vm_compute in Hdate.
Qed.


Lemma groupSimilarPhotos_partition_witness :
  placed_ids (groupSimilarPhotos sim0 (7 # 10) [photoA0; photoD0; photoB0; photoC0])
  ≡ₚ ["A"; "D"; "B"; "C"]
  ∧ photoD0 ∈ (groupSimilarPhotos sim0 (7 # 10) [photoA0; photoD0; photoB0; photoC0]).2.
Proof.
  destruct (groupSimilarPhotos_partition sim0 (7 # 10)
              [photoA0; photoD0; photoB0; photoC0]) as (Hperm & _ & Hunique).
  - apply (bool_decide_unpack _). by vm_compute.
  - split; [exact Hperm|]. apply Hunique.
    + apply list_elem_of_further, list_elem_of_here.
    + by vm_compute.
Defined.

Lemma group_similarity_bounds_witness :
  Forall (λ g, PhotoGroup.similarityThreshold g = 7 # 10
               ∧ (PhotoGroup.similarityThreshold g <= PhotoGroup.similarity g)%Q
               ∧ (PhotoGroup.similarity g <= 1)%Q)
    (groupSimilarPhotos sim0 (7 # 10) [photoA0; photoB0; photoC0]).1.
Proof.
  apply (group_similarity_bounds sim0 (7 # 10) [photoA0; photoB0; photoC0]).
  by vm_compute.
Defined.

(** Claim C7 as worded fails in two ways. With one positive similarity of 0.1
    and all others 0 the code returns 57, where the formula at the exact
    means gives 58; and an all-zero image embedding makes every cosine NaN,
    no call throws, and the quality is NaN. *)
Lemma quality_formula_fails :
  (analyzeImage_quality dot (Some [Number.of_Z 1])
     (Some (rows_of sims_tenth, rows_of sims_zero)) = Integer 57
   ∧ spec_score
       (arithmetic_mean ((λ s, default 0%Q (Number.to_Q s)) <$> sims_tenth)
        - arithmetic_mean ((λ s, default 0%Q (Number.to_Q s)) <$> sims_zero)) = 58
   ∧ ¬ quality_formula_claim sims_tenth sims_zero
         (analyzeImage_quality dot (Some [Number.of_Z 1])
            (Some (rows_of sims_tenth, rows_of sims_zero))))
  ∧ (cosine [Number.of_Z 0] [Number.of_Z 1] = Some S754_nan
     ∧ analyzeImage_quality cosine (Some [Number.of_Z 0])
         (Some (rows_of (replicate 10 (Number.of_Z 1)),
                rows_of (replicate 10 (Number.of_Z 1)))) = NotANumber
     ∧ ¬ quality_formula_claim (replicate 10 S754_nan) (replicate 10 S754_nan)
           (analyzeImage_quality cosine (Some [Number.of_Z 0])
              (Some (rows_of (replicate 10 (Number.of_Z 1)),
                     rows_of (replicate 10 (Number.of_Z 1)))))).
Proof.
  assert (H57 : analyzeImage_quality dot (Some [Number.of_Z 1])
                  (Some (rows_of sims_tenth, rows_of sims_zero)) = Integer 57)
    by (by vm_compute).
  assert (Hnan : analyzeImage_quality cosine (Some [Number.of_Z 0])
                   (Some (rows_of (replicate 10 (Number.of_Z 1)),
                          rows_of (replicate 10 (Number.of_Z 1)))) = NotANumber)
    by (by vm_compute).
  split; split_and!; [done|by vm_compute| |by vm_compute|done|].
  - rewrite H57. intros (n & [= <-] & _ & Hspec).
    specialize (Hspec ((λ s, default 0%Q (Number.to_Q s)) <$> sims_tenth)
                  ((λ s, default 0%Q (Number.to_Q s)) <$> sims_zero)).
    assert (57 = 58) as Habs; [|done].
    etrans; [apply Hspec|by vm_compute].
    + apply Forall2_fmap_r, Forall_Forall2_diag. by repeat constructor.
    + apply Forall2_fmap_r, Forall_Forall2_diag. by repeat constructor.
  - rewrite Hnan. by intros (n & [=] & _).
Qed.

Lemma quality_score_formula_witness :
  analyzeImage_quality dot (Some [Number.of_Z 1])
    (Some (rows_of (replicate 10 (decimal 9 10)),
           rows_of (replicate 10 (decimal 1 10)))) = Integer 100.
Proof.
  destruct (quality_score_formula dot [Number.of_Z 1]
              (rows_of (replicate 10 (decimal 9 10)))
              (rows_of (replicate 10 (decimal 1 10)))
              (replicate 10 (decimal 9 10)) (replicate 10 (decimal 1 10)))
    as (Hquality & _).
  - done.
  - apply Forall2_fmap_l, Forall_Forall2_diag, Forall_forall.
    intros s ->%elem_of_replicate_inv. by vm_compute.
  - apply Forall2_fmap_l, Forall_Forall2_diag, Forall_forall.
    intros s ->%elem_of_replicate_inv. by vm_compute.
  - rewrite Hquality. by vm_compute.
Defined.

(** Claim C2 as worded fails: toggling an id that no photo carries changes the
    selection, the history and the index. *)
Lemma toggle_unknown_changes_state :
  ("ghost" ∉ Photo.id <$> AppState.photos state_one)
  ∧ reducer 1 state_one (TOGGLE_SELECT_PHOTO "ghost")
    = Some (AppState.mk [Photo.with_selected true photoC0] [] ["C"; "ghost"]
              [photoC0]
              [HistoryEntry.mk ["C"] 0; HistoryEntry.mk ["C"; "ghost"] 1] 1)
  ∧ ¬ toggle_unknown_is_noop 1 state_one "ghost".
Proof.
  assert (Hghost : "ghost" ∉ Photo.id <$> AppState.photos state_one).
  { apply (bool_decide_unpack _). by vm_compute. }
  split_and!; [done|done|].
  intros Hnoop. specialize (Hnoop Hghost). by vm_compute in Hnoop.
Qed.

Lemma toggle_unknown_id_witness :
  ∃ s', reducer 1 state_one (TOGGLE_SELECT_PHOTO "ghost") = Some s'
        ∧ AppState.photos s' = AppState.photos state_one
        ∧ AppState.selectedPhotos s' = ["C"; "ghost"]
        ∧ s' ≠ state_one.
Proof.
  destruct (toggle_unknown_id 1 state_one "ghost")
    as (s' & Hred & Hphotos & _ & _ & Happend & _ & _ & _ & Hne).
  { apply (bool_decide_unpack _). by vm_compute. }
  exists s'. split_and!; [done|done| |done].
  apply Happend. apply (bool_decide_unpack _). by vm_compute.
Defined.

(** Claim C4 as worded fails on a selection that lists an id twice: the flags
    of the photos are cleared while the id stays selected. *)
Lemma duplicate_selection_breaks_flags :
  selection_consistent state_dup
  ∧ reducer 2 state_dup (TOGGLE_SELECT_PHOTO "D")
    = Some (AppState.mk
              [Photo.with_selected false photoD0; Photo.with_selected false photoD1]
              [] ["D"] [Photo.with_selected true photoD0; photoD1]
              [HistoryEntry.mk ["D"] 0; HistoryEntry.mk ["D"; "D"] 1;
               HistoryEntry.mk ["D"] 2] 2)
  ∧ ¬ transition_keeps_flags 2 state_dup (TOGGLE_SELECT_PHOTO "D").
Proof.
  assert (Hinv : selection_consistent state_dup) by (by repeat constructor).
  split_and!; [done|done|].
  intros Hkeep. specialize (Hkeep _ eq_refl Hinv).
  apply Forall_cons in Hkeep as [Hflag _]. by vm_compute in Hflag.
Qed.

Lemma selection_flags_preserved_witness :
  selection_consistent state_cleared.
Proof.
  apply (selection_flags_preserved 1 state_one (TOGGLE_SELECT_PHOTO "C")).
  - reflexivity.
  - by repeat constructor.
  - intros photoId [= <-]. vm_compute. lia.
Defined.

Lemma history_append_discipline_witness :
  ∃ entry,
    AppState.history state_cleared = [HistoryEntry.mk ["C"] 0] ++ [entry]
    ∧ HistoryEntry.selectedPhotos entry = []
    ∧ AppState.currentHistoryIndex state_cleared = 2 - 1.
Proof.
  destruct (history_append_discipline 1 state_one (TOGGLE_SELECT_PHOTO "C")
              state_cleared)
    as [Happend _].
  - apply (reachable_step 0 initialState
             (ADD_PHOTO_AND_UPDATE_GROUPS photoC0 [] [photoC0]));
      [apply reachable_init|reflexivity].
  - reflexivity.
  - apply Happend. simpl. discriminate.
Defined.

Lemma undo_then_redo_witness :
  ∃ s2 s3,
    reducer 2 state_cleared UNDO = Some s2
    ∧ AppState.selectedPhotos s2 = ["C"]
    ∧ reducer 3 s2 REDO = Some s3
    ∧ AppState.selectedPhotos s3 = [].
Proof.
  apply (undo_then_redo 1 2 3 state_one (TOGGLE_SELECT_PHOTO "C") state_cleared
           (HistoryEntry.mk ["C"] 0)).
  - simpl. lia.
  - reflexivity.
  - reflexivity.
  - reflexivity.
  - simpl. discriminate.
Defined.

(** ** More on the grouping loops *)

Lemma filter_sublist_impl {A} (P1 P2 : A → Prop)
    `{!∀ x, Decision (P1 x), !∀ x, Decision (P2 x)} (l : list A) :
  (∀ x, P1 x → P2 x) → filter P1 l `sublist_of` filter P2 l.
Proof.
  intros Himpl. induction l as [|x l IH]; [done|].
  rewrite !filter_cons. destruct (decide (P1 x)) as [H1|H1].
  - rewrite decide_True by auto. by apply sublist_skip.
  - destruct (decide (P2 x)); [by apply sublist_cons|done].
Qed.

Section GrouperMore.
Variable cos_sim : list Q → list Q → Q.
Variable thr : Q.

(** One pass of the inner loop adds only candidates that passed the test
    against the anchor, and tracks the minimum of their similarities. *)
Lemma inner_loop_members photoA rest cur m (P : gset string) cur' m' P' :
  inner_loop cos_sim thr photoA rest cur m P = (cur', m', P') →
  ∃ added,
    cur' = cur ++ added
    ∧ Forall (λ photoB, ∃ s, anchor_similarity cos_sim photoA photoB = Some s
                             ∧ (thr <= s)%Q) added
    ∧ m' = fold_left
             (λ m photoB,
                match anchor_similarity cos_sim photoA photoB with
                | Some s => Qmin m s
                | None => m
                end) added m.
Proof.
  revert cur m P. induction rest as [|photoB rest IH]; intros cur m P;
    cbn [inner_loop].
  - intros [= <- <- <-]. exists []. by rewrite app_nil_r.
  - case_bool_decide as HB; [by apply IH|].
    unfold anchor_similarity in *.
    destruct (Photo.embedding photoA) as [ea|] eqn:HA; [|by apply IH].
    destruct (Photo.embedding photoB) as [eb|] eqn:HBe; [|by apply IH].
    destruct (Qle_bool thr (cos_sim ea eb)) eqn:Hle; [|by apply IH].
    intros Hrun. destruct (IH _ _ _ Hrun) as (added & -> & Hall & ->).
    exists (photoB :: added). rewrite <- app_assoc. split_and!; [done| |].
    + constructor; [|done]. exists (cos_sim ea eb). rewrite HBe.
      split; [done|]. by apply Qle_bool_iff.
    + cbn [fold_left]. by rewrite HBe.
Qed.

(** Without any assumption on ids: what a pass adds, together with what is
    still unmarked after it, was unmarked before it. *)
Lemma inner_loop_submseteq photoA rest cur m (P : gset string) cur' m' P' :
  inner_loop cos_sim thr photoA rest cur m P = (cur', m', P') →
  ∃ added, cur' = cur ++ added
           ∧ P ⊆ P'
           ∧ added ++ filter (λ p, Photo.id p ∉ P') rest
             ⊆+ filter (λ p, Photo.id p ∉ P) rest.
Proof.
  revert cur m P. induction rest as [|photoB rest IH]; intros cur m P;
    cbn [inner_loop].
  - intros [= <- <- <-]. exists []. by rewrite app_nil_r.
  - assert (Hskip : ∀ cur m,
      inner_loop cos_sim thr photoA rest cur m P = (cur', m', P') →
      Photo.id photoB ∉ P →
      ∃ added, cur' = cur ++ added ∧ P ⊆ P'
               ∧ added ++ filter (λ p, Photo.id p ∉ P') (photoB :: rest)
                 ⊆+ filter (λ p, Photo.id p ∉ P) (photoB :: rest)).
    { intros cur0 m0 Hrun HB.
      destruct (IH _ _ _ Hrun) as (added & Hc & HP & Hsub).
      exists added. split_and!; [done..|].
      rewrite !filter_cons.
      destruct (decide (Photo.id photoB ∉ P)) as [_|?]; [|done].
      destruct (decide (Photo.id photoB ∉ P')).
      - rewrite <- Permutation_middle. by apply submseteq_skip.
      - by apply submseteq_cons. }
    case_bool_decide as HB.
    { intros Hrun. destruct (IH _ _ _ Hrun) as (added & Hc & HP & Hsub).
      exists added. split_and!; [done..|].
      rewrite !filter_cons_False; [done| |]; set_solver. }
    destruct (Photo.embedding photoA) as [ea|], (Photo.embedding photoB) as [eb|];
      try (by intros Hrun; eapply Hskip).
    destruct (Qle_bool thr (cos_sim ea eb)); [|by intros Hrun; eapply Hskip].
    intros Hrun. destruct (IH _ _ _ Hrun) as (added & Hc & HP & Hsub).
    exists (photoB :: added). subst cur'. rewrite <- app_assoc.
    split_and!; [done|set_solver|].
    rewrite !filter_cons.
    destruct (decide (Photo.id photoB ∉ P)) as [_|?]; [|done].
    destruct (decide (Photo.id photoB ∉ P')) as [Hno|_]; [set_solver|].
    cbn [app]. apply submseteq_skip. etrans; [exact Hsub|].
    apply sublist_submseteq, filter_sublist_impl. set_solver.
Qed.

Lemma outer_loop_submseteq l G U (P : gset string) G' U' :
  outer_loop cos_sim thr l G U P = (G', U') →
  ∃ G2 U2, G' = G ++ G2 ∧ U' = U ++ U2
           ∧ concat (PhotoGroup.photos <$> G2) ++ U2
             ⊆+ filter (λ p, Photo.id p ∉ P) l.
Proof.
  revert G U P. induction l as [|photoA rest IH]; intros G U P; cbn [outer_loop].
  - intros [= <- <-]. exists [], []. by rewrite !app_nil_r.
  - case_bool_decide as HA.
    { intros Hrun. destruct (IH _ _ _ Hrun) as (G2 & U2 & ? & ? & Hsub).
      exists G2, U2. split_and!; [done..|].
      by rewrite filter_cons_False by (by intros []). }
    destruct (inner_loop _ _ _ _ _ _ _) as [[cur m] P'] eqn:Hinner.
    eapply inner_loop_submseteq in Hinner as (added & -> & HP & Hadded).
    assert (Hrest : added ++ filter (λ p, Photo.id p ∉ P') rest
                    ⊆+ filter (λ p, Photo.id p ∉ P) rest).
    { etrans; [exact Hadded|]. apply sublist_submseteq, filter_sublist_impl.
      set_solver. }
    rewrite filter_cons_True by done.
    case_bool_decide as Hlen.
    + intros Hrun. destruct (IH _ _ _ Hrun) as (G2 & U2 & -> & -> & Hsub).
      eexists (_ :: G2), U2. rewrite <- app_assoc.
      split_and!; [done..|].
      rewrite fmap_cons. cbn [concat finalize_group PhotoGroup.photos].
      rewrite js_sort_perm, <- !app_assoc. cbn [app].
      apply submseteq_skip. etrans; [|exact Hrest].
      by apply submseteq_skips_l.
    + intros Hrun. destruct (IH _ _ _ Hrun) as (G2 & U2 & -> & -> & Hsub).
      exists G2, (photoA :: U2). rewrite <- app_assoc.
      split_and!; [done..|].
      rewrite <- Permutation_middle. apply submseteq_skip.
      etrans; [exact Hsub|]. etrans; [|exact Hrest]. by apply submseteq_inserts_l.
Qed.

Lemma fold_push_unembedded_sublist (photos U : list Photo.t) :
  ∃ X, fold_left push_unembedded photos U = U ++ X
       ∧ X `sublist_of` filter (λ p, ¬ has_embedding p) photos.
Proof.
  revert U. induction photos as [|p ps IH]; intros U; cbn [fold_left].
  - exists []. by rewrite app_nil_r.
  - destruct (IH (push_unembedded U p)) as (X & -> & HX).
    unfold push_unembedded. rewrite filter_cons.
    destruct (has_embedding p) eqn:Hemb; cbn [negb andb].
    + exists X. split; [done|].
      destruct (decide (¬ true)) as [Hd|_]; [by destruct Hd|done].
    + destruct (decide (¬ false)) as [_|Hd]; [|by destruct Hd; intros []].
      destruct (existsb _ U); cbn [negb].
      * exists X. split; [done|]. by apply sublist_cons.
      * exists (p :: X). rewrite <- app_assoc. split; [done|]. by apply sublist_skip.
Qed.

(** The photos of the result, counted with repetition, are among the input
    photos: nothing is invented and nothing is placed twice. *)
Lemma groupSimilarPhotos_submseteq (photos : list Photo.t) :
  placed_photos (groupSimilarPhotos cos_sim thr photos) ⊆+ photos.
Proof.
  unfold groupSimilarPhotos, placed_photos.
  pose proof (filter_app_complement (λ p, has_embedding p) photos) as Hsplit.
  cbv beta in Hsplit.
  case_bool_decide as Hnone; cbn [fst snd].
  - rewrite js_sort_perm. cbn [fmap list_fmap concat app].
    apply sublist_submseteq, sublist_filter.
  - destruct (outer_loop _ _ _ _ _ _) as [G U] eqn:Hrun. cbn [fst snd].
    apply outer_loop_submseteq in Hrun as (G2 & U2 & HG & HU & Hsub).
    rewrite app_nil_l in HG, HU. subst G2 U2.
    rewrite filter_unmarked_empty in Hsub by done.
    destruct (fold_push_unembedded_sublist photos U) as (X & -> & HX).
    rewrite !js_sort_perm, app_assoc, <- Hsplit.
    apply submseteq_app; [done|]. by apply sublist_submseteq.
Qed.
End GrouperMore.

(** ** Further properties of the grouping result *)

Section GrouperExtras.
Variable cos_sim : list Q → list Q → Q.
Variable thr : Q.

(** Groups come out by descending [date] and unique photos by descending
    [dateCreated], on every path of the function. *)
Theorem result_sorted_by_date (photos : list Photo.t) :
  StronglySorted date_desc (groupSimilarPhotos cos_sim thr photos).1
  ∧ StronglySorted dateCreated_desc (groupSimilarPhotos cos_sim thr photos).2.
Proof.
  unfold groupSimilarPhotos. case_bool_decide; cbn [fst snd].
  - split; [constructor|]. by apply (js_sort_sorted Photo.dateCreated).
  - destruct (outer_loop _ _ _ _ _ _) as [G U]. cbn [fst snd]. split.
    + by apply (js_sort_sorted PhotoGroup.date).
    + by apply (js_sort_sorted Photo.dateCreated).
Qed.

(** Every group is one anchor plus members that each passed the threshold
    against that anchor; its [similarity] is the minimum of 1 and these
    anchor-to-member similarities. Member-to-member similarities play no role. *)
Theorem groups_are_anchored (photos : list Photo.t) :
  Forall (anchored_group cos_sim thr) (groupSimilarPhotos cos_sim thr photos).1.
Proof.
  apply groupSimilarPhotos_groups.
  intros photoA rest P cur m P' _ Hinner Hlen.
  apply inner_loop_members in Hinner as (added & -> & Hall & ->).
  exists photoA, added. unfold finalize_group.
  cbn [PhotoGroup.photos PhotoGroup.similarity]. split_and!; [|  |done|done].
  - apply js_sort_perm.
  - intros ->. simpl in Hlen. lia.
Qed.

(** Whatever the ids are, the photos of the groups and the unique photos,
    counted with repetition, are among the input photos: no photo is invented
    and none is placed twice. *)
Theorem grouping_places_input_photos_once (photos : list Photo.t) :
  placed_photos (groupSimilarPhotos cos_sim thr photos) ⊆+ photos
  ∧ (length (placed_photos (groupSimilarPhotos cos_sim thr photos))
     ≤ length photos)%nat
  ∧ ∀ p, p ∈ placed_photos (groupSimilarPhotos cos_sim thr photos) → p ∈ photos.
Proof.
  pose proof (groupSimilarPhotos_submseteq cos_sim thr photos) as Hsub.
  split_and!; [done|by apply submseteq_length|].
  intros p Hp. by eapply elem_of_submseteq.
Qed.

Lemma inner_loop_none photoA rest cur m (P : gset string) cur' m' P' :
  (∀ photoB s, photoB ∈ rest →
     anchor_similarity cos_sim photoA photoB = Some s → (s < thr)%Q) →
  inner_loop cos_sim thr photoA rest cur m P = (cur', m', P') → cur' = cur.
Proof.
  intros Hnone Hrun.
  pose proof Hrun as (added & Hc & Hsub & _)%inner_loop_spec.
  pose proof Hrun as (added' & Hc' & Hall & _)%inner_loop_members.
  rewrite Hc in Hc'. apply app_inv_head in Hc' as <-.
  destruct added as [|photoB added]; [by rewrite app_nil_r in Hc|].
  apply Forall_cons in Hall as [(s & Hs & Hle) _].
  assert (photoB ∈ rest) as Hin.
  { eapply sublist_subseteq; [exact Hsub|by left]. }
  specialize (Hnone _ _ Hin Hs). by apply Qlt_not_le in Hnone.
Qed.

(** When the ids are pairwise distinct and no two photos with different ids
    reach the threshold, there is no group and the unique photos are all the
    input photos. *)
Theorem no_similar_pair_no_group (photos : list Photo.t) :
  NoDup (Photo.id <$> photos) →
  (∀ photoA photoB s, photoA ∈ photos → photoB ∈ photos →
     Photo.id photoA ≠ Photo.id photoB →
     anchor_similarity cos_sim photoA photoB = Some s → (s < thr)%Q) →
  (groupSimilarPhotos cos_sim thr photos).1 = []
  ∧ (groupSimilarPhotos cos_sim thr photos).2 ≡ₚ photos.
Proof.
  intros Hnd Hnone.
  assert (Hgroups : (groupSimilarPhotos cos_sim thr photos).1 = []).
  { assert (Forall (λ _, False) (groupSimilarPhotos cos_sim thr photos).1) as Hall.
    { apply groupSimilarPhotos_groups.
      intros photoA rest P cur m P' Hsuf Hinner Hlen.
      assert (Hsub : photoA :: rest `sublist_of` photos).
      { trans (filter (λ p, has_embedding p) photos); [|apply sublist_filter].
        destruct Hsuf as [k ->]. by apply sublist_inserts_l. }
      assert (Hin : ∀ p, p ∈ photoA :: rest → p ∈ photos).
      { intros p Hp. by eapply sublist_subseteq. }
      assert (Hnd' : NoDup (Photo.id <$> photoA :: rest)).
      { eapply sublist_NoDup; [exact Hnd|]. by apply fmap_sublist. }
      rewrite fmap_cons in Hnd'. apply NoDup_cons in Hnd' as [HA _].
      apply inner_loop_none in Hinner; [subst cur; simpl in Hlen; lia|].
      intros photoB s HB. apply Hnone; [apply Hin; by left|apply Hin; by right|].
      intros Heq. apply HA. rewrite Heq. by apply list_elem_of_fmap_2. }
    by destruct Hall. }
  split; [done|].
  pose proof (groupSimilarPhotos_submseteq cos_sim thr photos) as Hsub.
  destruct (groupSimilarPhotos_placed cos_sim thr photos Hnd) as [Hperm _].
  apply Permutation_length in Hperm.
  unfold placed_photos, placed_ids in *. rewrite Hgroups in *.
  cbn [fmap list_fmap concat app] in *. rewrite !length_fmap in Hperm.
  apply submseteq_length_Permutation; [done|lia].
Qed.

(** When every input photo's capture date is its [dateCreated] (as for the
    photos that [addPhotos] builds without EXIF data), every group is dated by
    the capture date of its first photo. *)
Theorem group_date_is_capture_date_without_exif (photos : list Photo.t) :
  Forall (λ p, capture_date p = Photo.dateCreated p) photos →
  Forall group_date_is_capture_date (groupSimilarPhotos cos_sim thr photos).1.
Proof. apply group_dates_when_capture_is_created. Qed.
End GrouperExtras.

(** ** Similar pairs and group ids *)

Lemma append_length (s t : string) :
  String.length (s +:+ t) = (String.length s + String.length t)%nat.
Proof. induction s as [|a s IH]; simpl; [done|]. by rewrite IH. Qed.

Lemma append_suffix_inj (t s1 s2 : string) : s1 +:+ t = s2 +:+ t → s1 = s2.
Proof.
  revert s2. induction s1 as [|a s1 IH]; intros [|b s2] Heq; simpl in Heq.
  - done.
  - apply (f_equal String.length) in Heq.
    rewrite !append_length in Heq. cbn [String.length] in Heq. lia.
  - apply (f_equal String.length) in Heq.
    rewrite !append_length in Heq. cbn [String.length] in Heq. lia.
  - cbn [String.append] in Heq. injection Heq as -> Heq. f_equal. by apply IH.
Qed.

Lemma elem_of_concat {A} (x : A) (ls : list (list A)) :
  x ∈ concat ls ↔ ∃ l, l ∈ ls ∧ x ∈ l.
Proof.
  induction ls as [|l ls IH]; cbn [concat].
  - split; [by intros ?%elem_of_nil|]. by intros (l & ?%elem_of_nil & _).
  - rewrite elem_of_app, IH. split.
    + intros [Hx|(l' & Hl' & Hx)]; [exists l|exists l']; split; try done;
        [by left|by right].
    + intros (l' & [->|Hl']%elem_of_cons & Hx); [by left|right]. by exists l'.
Qed.

Section SimilarPairs.
Variable cos_sim : list Q → list Q → Q.
Variable thr : Q.

(** With distinct ids, a pass of the inner loop adds every still unmarked
    candidate that passes the test. *)
Lemma inner_loop_complete photoA rest cur m (P : gset string) cur' m' P' photoB :
  NoDup (Photo.id <$> rest) →
  inner_loop cos_sim thr photoA rest cur m P = (cur', m', P') →
  photoB ∈ rest → Photo.id photoB ∉ P →
  similar_enough cos_sim thr photoA photoB →
  photoB ∈ cur'.
Proof.
  intros Hnd Hrun Hin HB (s & Hs & Hle). unfold anchor_similarity in Hs.
  destruct (Photo.embedding photoA) as [ea|] eqn:HA; [|done].
  destruct (Photo.embedding photoB) as [eb|] eqn:HBe; [|done].
  injection Hs as <-. apply Qle_bool_iff in Hle.
  revert cur m P Hrun HB.
  induction rest as [|photoC rest IH]; intros cur m P Hrun HB;
    [by apply elem_of_nil in Hin|].
  rewrite fmap_cons in Hnd. apply NoDup_cons in Hnd as [HCrest Hnd].
  cbn [inner_loop] in Hrun. rewrite HA in Hrun.
  apply elem_of_cons in Hin as [<-|Hin].
  - rewrite bool_decide_eq_false_2, HBe, Hle in Hrun by done.
    apply inner_loop_spec in Hrun as (added & -> & _).
    rewrite !elem_of_app, list_elem_of_singleton. auto.
  - assert (Photo.id photoB ≠ Photo.id photoC) as Hne.
    { intros Heq. apply HCrest. rewrite <- Heq. by apply list_elem_of_fmap_2. }
    destruct (bool_decide _); [by eapply IH|].
    destruct (Photo.embedding photoC) as [ec|]; [|by eapply IH].
    destruct (Qle_bool thr (cos_sim ea ec)); [|by eapply IH].
    eapply IH; [done..|]. set_solver.
Qed.

Lemma in_some_group_app (G G2 : list PhotoGroup.t) (p : Photo.t) :
  in_some_group G p → in_some_group (G ++ G2) p.
Proof. intros (g & Hg & Hp). exists g. rewrite elem_of_app. auto. Qed.

(** The outer loop never leaves both photos of a passing pair outside the
    groups. *)
Lemma outer_loop_pairs l G U (P : gset string) G' U' :
  NoDup (Photo.id <$> l) →
  outer_loop cos_sim thr l G U P = (G', U') →
  (∀ p, p ∈ l → Photo.id p ∈ P → in_some_group G p) →
  ∀ l1 photoA l2 photoB,
    l = l1 ++ photoA :: l2 → photoB ∈ l2 →
    similar_enough cos_sim thr photoA photoB →
    in_some_group G' photoA ∨ in_some_group G' photoB.
Proof.
  revert G U P. induction l as [|photoX rest IH]; intros G U P Hnd Hrun Hinv
    l1 photoA l2 photoB Hl HB Hsim; [by destruct l1|].
  rewrite fmap_cons in Hnd. apply NoDup_cons in Hnd as [HXrest Hnd].
  assert (Hfresh : ∀ p, p ∈ rest → Photo.id p ≠ Photo.id photoX).
  { intros p Hp Heq. apply HXrest. rewrite <- Heq. by apply list_elem_of_fmap_2. }
  assert (Hcase : (photoX = photoA ∧ photoB ∈ rest)
                  ∨ ∃ l1', rest = l1' ++ photoA :: l2).
  { destruct l1 as [|? l1]; injection Hl as Hx Hr; [left|right; by exists l1].
    by rewrite Hr. }
  clear Hl. cbn [outer_loop] in Hrun.
  case_bool_decide as HX.
  { pose proof Hrun as (G2 & U2 & -> & _ & _)%outer_loop_submseteq.
    destruct Hcase as [[-> HBrest]|[l1' Hrest]].
    - left. apply in_some_group_app, Hinv; [by left|done].
    - eapply IH; [done|done| |done..].
      intros p Hp. apply Hinv. by right. }
  destruct (inner_loop _ _ _ _ _ _ _) as [[cur m] P'] eqn:Hinner.
  pose proof Hinner as (added & Hcur & Hsub & HP')%inner_loop_spec.
  case_bool_decide as Hlen.
  - pose proof Hrun as (G2 & U2 & -> & _ & _)%outer_loop_submseteq.
    assert (Hgrp : ∀ p, p ∈ cur →
              in_some_group (G ++ [finalize_group photoX cur m thr]) p).
    { intros p Hp. exists (finalize_group photoX cur m thr).
      split; [set_solver|].
      unfold finalize_group. cbn [PhotoGroup.photos]. by rewrite js_sort_perm. }
    destruct Hcase as [[<- HBrest]|[l1' Hrest]].
    + left. apply in_some_group_app, Hgrp. subst cur. by left.
    + eapply IH; [done|done| |done..].
      intros p Hp HpP. subst P'.
      apply elem_of_union in HpP as [Hadd|HpP].
      * apply Hgrp. subst cur. rewrite elem_of_app. right.
        apply elem_of_list_to_set, list_elem_of_fmap in Hadd as (q & Hid & Hq).
        assert (p = q) as -> by (apply (NoDup_fmap_inj_on Photo.id rest); try done;
          by eapply sublist_subseteq).
        done.
      * apply in_some_group_app.
        apply elem_of_union in HpP as [HpX%elem_of_singleton|HpP];
          [by destruct (Hfresh p Hp)|].
        apply Hinv; [by right|done].
  - assert (added = []) as ->.
    { destruct added; [done|]. subst cur. simpl in Hlen. lia. }
    pose proof Hrun as (G2 & U2 & -> & _ & _)%outer_loop_submseteq.
    destruct Hcase as [[<- HBrest]|[l1' Hrest]].
    + destruct (decide (Photo.id photoB ∈ P)) as [HBP|HBP].
      { right. apply in_some_group_app, Hinv; [by right|done]. }
      eapply inner_loop_complete in Hinner; [|done|exact HBrest| |done].
      * subst cur. apply list_elem_of_singleton in Hinner as ->.
        by destruct (Hfresh photoX HBrest).
      * apply not_elem_of_union. split; [|done].
        intros Heq%elem_of_singleton. by destruct (Hfresh photoB HBrest).
    + eapply IH; [done|done| |done..].
      intros p Hp HpP. subst P'. cbn [fmap list_fmap list_to_set] in HpP.
      apply elem_of_union in HpP as [?%elem_of_empty|HpP]; [done|].
      apply elem_of_union in HpP as [HpX%elem_of_singleton|HpP];
        [by destruct (Hfresh p Hp)|].
      apply Hinv; [by right|done].
Qed.

(** With distinct ids, two embedded photos that pass the threshold, anchor
    side first in the input, are never both left unique: at least one of them
    is in a group. *)
Theorem similar_pair_not_both_unique (photos l1 l2 : list Photo.t)
    (photoA photoB : Photo.t) :
  NoDup (Photo.id <$> photos) →
  photos = l1 ++ photoA :: l2 → photoB ∈ l2 →
  has_embedding photoA → has_embedding photoB →
  similar_enough cos_sim thr photoA photoB →
  (in_some_group (groupSimilarPhotos cos_sim thr photos).1 photoA
   ∨ in_some_group (groupSimilarPhotos cos_sim thr photos).1 photoB)
  ∧ ¬ (photoA ∈ (groupSimilarPhotos cos_sim thr photos).2
       ∧ photoB ∈ (groupSimilarPhotos cos_sim thr photos).2).
Proof.
  intros Hnd Hphotos HB HeA HeB Hsim.
  assert (Hgrouped :
    in_some_group (groupSimilarPhotos cos_sim thr photos).1 photoA
    ∨ in_some_group (groupSimilarPhotos cos_sim thr photos).1 photoB).
  { unfold groupSimilarPhotos.
    assert (Hfilter : filter (λ p, has_embedding p) photos
                      = filter (λ p, has_embedding p) l1
                        ++ photoA :: filter (λ p, has_embedding p) l2).
    { by rewrite Hphotos, filter_app, filter_cons_True. }
    case_bool_decide as Hnone.
    { rewrite Hfilter, length_app in Hnone. simpl in Hnone. lia. }
    destruct (outer_loop _ _ _ _ _ _) as [G U] eqn:Hrun. cbn [fst].
    assert (in_some_group G photoA ∨ in_some_group G photoB) as Hor.
    { eapply outer_loop_pairs; [|exact Hrun| |exact Hfilter| |exact Hsim].
      - eapply sublist_NoDup; [exact Hnd|apply fmap_sublist, sublist_filter].
      - intros p _ ?%elem_of_empty. done.
      - by apply list_elem_of_filter. }
    destruct Hor as [(g & Hg & Hp)|(g & Hg & Hp)]; [left|right];
      exists g; by rewrite js_sort_perm. }
  split; [done|]. intros [HAu HBu].
  destruct (groupSimilarPhotos_placed cos_sim thr photos Hnd) as [Hperm _].
  rewrite <- Hperm in Hnd. unfold placed_ids in Hnd.
  apply NoDup_app in Hnd as (_ & Hdisj & _).
  destruct Hgrouped as [(g & Hg & Hp)|(g & Hg & Hp)].
  - apply (Hdisj (Photo.id photoA)); [|by apply list_elem_of_fmap_2].
    apply elem_of_concat. exists (group_ids g).
    split; [by apply list_elem_of_fmap_2|by apply list_elem_of_fmap_2].
  - apply (Hdisj (Photo.id photoB)); [|by apply list_elem_of_fmap_2].
    apply elem_of_concat. exists (group_ids g).
    split; [by apply list_elem_of_fmap_2|by apply list_elem_of_fmap_2].
Qed.

Lemma group_ids_NoDup (G : list PhotoGroup.t) :
  Forall group_id_of_top G → NoDup (concat (group_ids <$> G)) →
  NoDup (PhotoGroup.id <$> G).
Proof.
  induction 1 as [|g G (top & Htop & Hid) Hall IH]; [constructor|].
  rewrite !fmap_cons. cbn [concat]. intros (Hg & Hdisj & HG)%NoDup_app.
  apply NoDup_cons. split; [|by apply IH].
  intros (g' & Hid' & Hg')%list_elem_of_fmap.
  apply (proj1 (Forall_forall _ _) Hall) in Hg' as Htop'.
  destruct Htop' as (top' & Htop' & Hid'').
  rewrite Hid, Hid'' in Hid'. apply append_suffix_inj in Hid'.
  apply (Hdisj (Photo.id top)).
  - unfold group_ids. destruct (PhotoGroup.photos g); [done|].
    injection Htop as ->. rewrite fmap_cons. by left.
  - apply elem_of_concat. exists (group_ids g').
    split; [by apply list_elem_of_fmap_2|].
    unfold group_ids. destruct (PhotoGroup.photos g'); [done|].
    injection Htop' as ->. rewrite Hid', fmap_cons. by left.
Qed.

(** A group's id is the id of its first photo followed by "-group"; with
    distinct photo ids no two groups of a result share an id. *)
Theorem group_ids_distinct (photos : list Photo.t) :
  NoDup (Photo.id <$> photos) →
  Forall group_id_of_top (groupSimilarPhotos cos_sim thr photos).1
  ∧ NoDup (PhotoGroup.id <$> (groupSimilarPhotos cos_sim thr photos).1).
Proof.
  intros Hnd.
  assert (Htops : Forall group_id_of_top (groupSimilarPhotos cos_sim thr photos).1).
  { apply groupSimilarPhotos_groups.
    intros photoA rest P cur m P' _ _ Hlen.
    unfold group_id_of_top, finalize_group.
    cbn [PhotoGroup.photos PhotoGroup.id].
    pose proof (js_sort_length by_quality_desc cur) as Hl.
    destruct (js_sort by_quality_desc cur) as [|top sorted]; [simpl in Hl; lia|].
    by exists top. }
  split; [done|]. apply group_ids_NoDup; [done|].
  destruct (groupSimilarPhotos_placed cos_sim thr photos Hnd) as [Hperm _].
  rewrite <- Hperm in Hnd. unfold placed_ids in Hnd.
  by apply NoDup_app in Hnd as (? & _ & _).
Qed.
End SimilarPairs.

(** ** More on the quality scorer *)

Lemma calibrate_nan_or_in_range (rawScore : Number.t) :
  calibrate rawScore = NotANumber
  ∨ ∃ n, calibrate rawScore = Integer n ∧ 0 ≤ n ≤ 100.
Proof.
  destruct (calibrate_cases rawScore) as [Hnan Hint].
  destruct rawScore as [s|s| |s m e];
    [right|right|left; by apply Hnan|right];
    (destruct Hint as (n & Hn & Hrange & _); [done|by exists n]).
Qed.

Section ScorerMore.
Variable cos_sim : list Number.t → list Number.t → option Number.t.

Lemma total_similarity_throws (e : list Number.t) (rows : list (list Number.t))
    (total : Number.t) :
  Exists (λ row, cos_sim e row = None) rows →
  total_similarity cos_sim e rows total = None.
Proof.
  intros Hex. revert total.
  induction Hex as [row rows Hrow|row rows _ IH]; intros total;
    cbn [total_similarity].
  - by rewrite Hrow.
  - destruct (cos_sim e row); [apply IH|done].
Qed.

(** Whatever it is given, the scorer answers NaN or an integer from 0 to 100:
    whatever the embedding and the prompt tensors are (empty ones included),
    whatever numbers [cos_sim] returns, and whether or not it throws. *)
Theorem quality_nan_or_in_range (embedding : option (list Number.t))
    (qualityEmbeddings : option (list (list Number.t) * list (list Number.t))) :
  analyzeImage_quality cos_sim embedding qualityEmbeddings = NotANumber
  ∨ ∃ n, analyzeImage_quality cos_sim embedding qualityEmbeddings = Integer n
         ∧ 0 ≤ n ≤ 100.
Proof.
  assert (Hzero : ∃ n, Integer 0 = Integer n ∧ 0 ≤ n ≤ 100)
    by (exists 0; split; [done|lia]).
  unfold analyzeImage_quality, try_quality.
  destruct embedding as [e|], qualityEmbeddings as [[pos neg]|]; try by right.
  destruct (bool_decide _); [|by right].
  destruct (total_similarity cos_sim e pos _); cbn [mbind option_bind]; [|by right].
  destruct (total_similarity cos_sim e neg _); cbn [mbind option_bind]; [|by right].
  apply calibrate_nan_or_in_range.
Qed.

(** The scorer answers 0 when the embedding is missing or empty, when the
    prompt embeddings are missing, and when a similarity computation against
    a positive or a negative prompt row throws. *)
Theorem quality_zero_on_failure (embedding : option (list Number.t))
    (qualityEmbeddings : option (list (list Number.t) * list (list Number.t))) :
  (embedding = None ∨ embedding = Some [] ∨ qualityEmbeddings = None →
   analyzeImage_quality cos_sim embedding qualityEmbeddings = Integer 0)
  ∧ (∀ e positiveEmbeddings negativeEmbeddings,
       embedding = Some e →
       qualityEmbeddings = Some (positiveEmbeddings, negativeEmbeddings) →
       Exists (λ row, cos_sim e row = None)
         (positiveEmbeddings ++ negativeEmbeddings) →
       analyzeImage_quality cos_sim embedding qualityEmbeddings = Integer 0).
Proof.
  split.
  - unfold analyzeImage_quality. intros [-> | [-> | ->]]; [done| |].
    + destruct qualityEmbeddings as [[pos neg]|]; [|done].
      rewrite bool_decide_eq_false_2; [done|simpl; lia].
    + by destruct embedding.
  - intros e pos neg -> -> [Hex|Hex]%Exists_app;
      unfold analyzeImage_quality, try_quality; destruct (bool_decide _); try done.
    + by rewrite (total_similarity_throws _ _ _ Hex).
    + destruct (total_similarity cos_sim e pos _); cbn [mbind option_bind]; [|done].
      by rewrite (total_similarity_throws _ _ _ Hex).
Qed.
End ScorerMore.

(** ** More on the reducer *)

Lemma with_selected_twice (b b' : bool) (p : Photo.t) :
  Photo.with_selected b (Photo.with_selected b' p) = Photo.with_selected b p.
Proof. done. Qed.

Lemma with_selected_same (p : Photo.t) : Photo.with_selected (Photo.selected p) p = p.
Proof. by destruct p. Qed.

Lemma fmap_flags_erased (f : Photo.t → Photo.t) (l : list Photo.t) :
  (∀ p, Photo.with_selected false (f p) = Photo.with_selected false p) →
  Photo.with_selected false <$> (f <$> l) = Photo.with_selected false <$> l.
Proof.
  intros Hf. rewrite <- list_fmap_compose. apply list_fmap_ext. intros ? p _. apply Hf.
Qed.

Lemma reducer_frame (now : Z) (s : AppState.t) (a : PhotoAction)
    (s' : AppState.t) :
  reducer now s a = Some s' →
  match a with
  | ADD_PHOTO_AND_UPDATE_GROUPS photo groups uniquePhotos =>
      Photo.with_selected false <$> AppState.photos s'
      = Photo.with_selected false <$> (AppState.photos s ++ [photo])
      ∧ AppState.groups s' = groups ∧ AppState.uniquePhotos s' = uniquePhotos
  | _ =>
      Photo.with_selected false <$> AppState.photos s'
      = Photo.with_selected false <$> AppState.photos s
      ∧ AppState.groups s' = AppState.groups s
      ∧ AppState.uniquePhotos s' = AppState.uniquePhotos s
  end.
Proof.
  intros Hred.
  assert (Hrestore : ∀ e i,
    Photo.with_selected false <$> AppState.photos (restore s e i)
    = Photo.with_selected false <$> AppState.photos s).
  { intros e i. cbn [restore AppState.photos]. by apply fmap_flags_erased. }
  destruct a; cbn [reducer] in Hred.
  - destruct (best_ids groups) as [best|]; [|done]. cbn [mbind option_bind] in Hred.
    destruct (bool_decide _); injection Hred as <-;
      cbn [AppState.photos AppState.groups AppState.uniquePhotos];
      (split; [by apply fmap_flags_erased|done]).
  - injection Hred as <-. cbn [commit AppState.photos AppState.groups
      AppState.uniquePhotos]. split; [|done].
    apply fmap_flags_erased. intros p. by case_bool_decide.
  - selection_case Hred; try done.
    cbn [commit AppState.photos AppState.groups AppState.uniquePhotos].
    split; [|done]. apply fmap_flags_erased. intros p. by destruct (includes _ _).
  - selection_case Hred; try done.
    cbn [commit AppState.photos AppState.groups AppState.uniquePhotos].
    split; [|done]. apply fmap_flags_erased. intros p. by destruct (includes _ _).
  - selection_case Hred; try done.
    cbn [commit AppState.photos AppState.groups AppState.uniquePhotos].
    split; [|done]. by apply fmap_flags_erased.
  - selection_case Hred; try done.
    cbn [commit AppState.photos AppState.groups AppState.uniquePhotos].
    split; [|done]. by apply fmap_flags_erased.
  - destruct (_ <=? _); [by injection Hred as <-|].
    destruct (js_index _ _) as [e|]; [|done]. injection Hred as <-.
    split; [apply Hrestore|done].
  - destruct (_ <=? _); [by injection Hred as <-|].
    destruct (js_index _ _) as [e|]; [|done]. injection Hred as <-.
    split; [apply Hrestore|done].
Qed.

(** No transition removes, reorders or rewrites a photo: apart from the
    [selected] flags the photo list stays as it is, and an ingest appends
    exactly the new photo; groups and unique photos change only on an ingest,
    which stores the ones it is given. *)
Theorem photos_only_change_flags (now : Z) (s : AppState.t) (a : PhotoAction)
    (s' : AppState.t) :
  reducer now s a = Some s' →
  match a with
  | ADD_PHOTO_AND_UPDATE_GROUPS photo groups uniquePhotos =>
      Photo.with_selected false <$> AppState.photos s'
      = Photo.with_selected false <$> (AppState.photos s ++ [photo])
      ∧ AppState.groups s' = groups ∧ AppState.uniquePhotos s' = uniquePhotos
  | _ =>
      Photo.with_selected false <$> AppState.photos s'
      = Photo.with_selected false <$> AppState.photos s
      ∧ AppState.groups s' = AppState.groups s
      ∧ AppState.uniquePhotos s' = AppState.uniquePhotos s
  end.
Proof. apply reducer_frame. Qed.

(** *** The index and the current selection *)

Lemma commit_synced (now : Z) (s : AppState.t) (sel : list string)
    (photos : list Photo.t) :
  history_wf s →
  0 ≤ AppState.currentHistoryIndex (commit now s sel photos)
  ∧ current_entry_synced (commit now s sel photos).
Proof.
  intros Hwf. unfold current_entry_synced.
  cbn [commit AppState.history AppState.currentHistoryIndex AppState.selectedPhotos].
  split; [destruct Hwf; lia|]. eexists. by rewrite push_history_last.
Qed.

Lemma reducer_synced (now : Z) (s : AppState.t) (a : PhotoAction) (s' : AppState.t) :
  history_wf s →
  s = initialState
  ∨ (0 ≤ AppState.currentHistoryIndex s ∧ current_entry_synced s) →
  reducer now s a = Some s' →
  s' = initialState
  ∨ (0 ≤ AppState.currentHistoryIndex s' ∧ current_entry_synced s').
Proof.
  intros Hwf Hs Hred. destruct a; cbn [reducer] in Hred.
  - right. destruct (best_ids groups) as [best|]; [|done].
    cbn [mbind option_bind] in Hred.
    destruct (bool_decide _); injection Hred as <-; unfold current_entry_synced;
      cbn [AppState.history AppState.currentHistoryIndex AppState.selectedPhotos].
    + split; [done|]. by eexists.
    + rewrite push_history_length by done. destruct Hwf.
      split; [lia|]. eexists.
      replace (AppState.currentHistoryIndex s + 2 - 1)
        with (AppState.currentHistoryIndex s + 1) by lia.
      by rewrite push_history_last.
  - right. injection Hred as <-. by apply commit_synced.
  - selection_case Hred; try done; right; by apply commit_synced.
  - selection_case Hred; try done; right; by apply commit_synced.
  - selection_case Hred; try done; right; by apply commit_synced.
  - selection_case Hred; try done; right; by apply commit_synced.
  - destruct (Z.leb_spec (AppState.currentHistoryIndex s) 0);
      [by injection Hred as <-|].
    destruct (js_index _ _) as [e|] eqn:He; [|done]. injection Hred as <-.
    right. unfold current_entry_synced.
    cbn [restore AppState.history AppState.currentHistoryIndex
         AppState.selectedPhotos]. split; [lia|]. by exists e.
  - destruct (Z.leb_spec (Z.of_nat (length (AppState.history s)) - 1)
                (AppState.currentHistoryIndex s)); [by injection Hred as <-|].
    destruct (js_index _ _) as [e|] eqn:He; [|done]. injection Hred as <-.
    right. unfold current_entry_synced.
    cbn [restore AppState.history AppState.currentHistoryIndex
         AppState.selectedPhotos]. destruct Hwf. split; [lia|]. by exists e.
Qed.

Lemma reachable_synced (s : AppState.t) :
  reachable s →
  s = initialState
  ∨ (0 ≤ AppState.currentHistoryIndex s ∧ current_entry_synced s).
Proof.
  induction 1 as [|now s a s' Hs IH Hred]; [by left|].
  eapply reducer_synced; [|exact IH|exact Hred]. by apply reachable_history_wf.
Qed.

(** In every state of the store other than the initial one the index is at
    least 0 and the history entry under it holds the current selection. *)
Theorem current_entry_holds_selection (s : AppState.t) :
  reachable s →
  s = initialState
  ∨ (0 ≤ AppState.currentHistoryIndex s
     ∧ ∃ e, js_index (AppState.history s) (AppState.currentHistoryIndex s) = Some e
            ∧ HistoryEntry.selectedPhotos e = AppState.selectedPhotos s).
Proof. apply reachable_synced. Qed.

(** After a transition that appended to history there is nothing to redo:
    REDO returns the state as it is. *)
Theorem new_action_discards_redo (now now' : Z) (s : AppState.t) (a : PhotoAction)
    (s' : AppState.t) :
  history_wf s → reducer now s a = Some s' → appends_history s a s' →
  reducer now' s' REDO = Some s'.
Proof.
  intros Hwf Hred Happ. destruct (appends_shape _ _ _ _ Hwf Hred Happ) as [Hh Hi].
  cbn [reducer]. rewrite Hh, push_history_length, Hi by done.
  by destruct (Z.leb_spec (AppState.currentHistoryIndex s + 2 - 1)
                 (AppState.currentHistoryIndex s + 1)) as [_|?]; [|lia].
Qed.

Lemma restore_back (s : AppState.t) (e0 e : HistoryEntry.t) (i j : Z) :
  selection_consistent s →
  HistoryEntry.selectedPhotos e = AppState.selectedPhotos s →
  j = AppState.currentHistoryIndex s →
  restore (restore s e0 i) e j = s.
Proof.
  intros Hinv He ->. unfold restore.
  cbn [AppState.photos AppState.groups AppState.uniquePhotos AppState.history].
  rewrite He. destruct s as [photos groups sel unique history idx].
  cbn [AppState.photos AppState.groups AppState.uniquePhotos AppState.history
       AppState.selectedPhotos AppState.currentHistoryIndex] in *.
  f_equal. unfold selection_consistent in Hinv. cbn in Hinv.
  rewrite <- list_fmap_compose.
  rewrite <- (list_fmap_id photos) at 2. apply list_fmap_ext.
  intros i' p Hp. cbn. rewrite with_selected_twice.
  rewrite <- (proj1 (Forall_forall _ _) Hinv p) by (by eapply list_elem_of_lookup_2).
  apply with_selected_same.
Qed.

(** In a state of the store whose flags agree with the selection, UNDO and
    REDO are inverse to each other: whenever one of them moves the index, the
    other brings back the very same state. *)
Theorem undo_redo_inverse (now now' : Z) (s : AppState.t) :
  reachable s → selection_consistent s →
  (0 < AppState.currentHistoryIndex s →
   ∃ s1, reducer now s UNDO = Some s1 ∧ reducer now' s1 REDO = Some s)
  ∧ (AppState.currentHistoryIndex s < Z.of_nat (length (AppState.history s)) - 1 →
     ∃ s1, reducer now s REDO = Some s1 ∧ reducer now' s1 UNDO = Some s).
Proof.
  intros Hs Hinv. pose proof (reachable_history_wf _ Hs) as [Hlo Hhi].
  destruct (reachable_synced _ Hs) as [->|[Hidx (e & He & Hsel)]].
  { split; cbn; lia. }
  split; intros Hmove.
  - assert (is_Some (js_index (AppState.history s) (AppState.currentHistoryIndex s - 1)))
      as [e0 He0].
    { rewrite js_index_lookup by lia. apply lookup_lt_is_Some_2. lia. }
    exists (restore s e0 (AppState.currentHistoryIndex s - 1)).
    cbn [reducer].
    destruct (Z.leb_spec (AppState.currentHistoryIndex s) 0) as [?|_]; [lia|].
    rewrite He0. cbn [mbind option_bind]. split; [done|].
    cbn [restore AppState.history AppState.currentHistoryIndex].
    destruct (Z.leb_spec (Z.of_nat (length (AppState.history s)) - 1)
                (AppState.currentHistoryIndex s - 1)) as [?|_]; [lia|].
    replace (AppState.currentHistoryIndex s - 1 + 1)
      with (AppState.currentHistoryIndex s) by lia.
    rewrite He. cbn [mbind option_bind]. f_equal.
    by apply (restore_back s e0 e).
  - assert (is_Some (js_index (AppState.history s) (AppState.currentHistoryIndex s + 1)))
      as [e1 He1].
    { rewrite js_index_lookup by lia. apply lookup_lt_is_Some_2. lia. }
    exists (restore s e1 (AppState.currentHistoryIndex s + 1)).
    cbn [reducer].
    destruct (Z.leb_spec (Z.of_nat (length (AppState.history s)) - 1)
                (AppState.currentHistoryIndex s)) as [?|_]; [lia|].
    rewrite He1. cbn [mbind option_bind]. split; [done|].
    cbn [restore AppState.history AppState.currentHistoryIndex].
    destruct (Z.leb_spec (AppState.currentHistoryIndex s + 1) 0) as [?|_]; [lia|].
    replace (AppState.currentHistoryIndex s + 1 - 1)
      with (AppState.currentHistoryIndex s) by lia.
    rewrite He. cbn [mbind option_bind]. f_equal.
    by apply (restore_back s e1 e).
Qed.

(** *** Toggling twice *)

Lemma app_singleton_first_split {A} (l l1 l2 : list A) (x : A) :
  x ∉ l → x ∉ l1 → l ++ [x] = l1 ++ x :: l2 → l1 = l ∧ l2 = [].
Proof.
  revert l1. induction l as [|y l IH]; intros l1 Hl Hl1 Heq.
  - destruct l1 as [|z l1]; cbn [app] in Heq.
    + by injection Heq as <-.
    + injection Heq as <- Heq. by destruct l1.
  - destruct l1 as [|z l1]; cbn [app] in Heq.
    + injection Heq as -> _. destruct Hl. by left.
    + injection Heq as <- Heq.
      apply not_elem_of_cons in Hl as [_ Hl]. apply not_elem_of_cons in Hl1 as [_ Hl1].
      by destruct (IH l1 Hl Hl1 Heq) as [-> ->].
Qed.

Lemma toggled_twice (sel : list string) (x : string) :
  (occurrences x sel ≤ 1)%nat →
  toggled (toggled sel x) x ≡ₚ sel
  ∧ (x ∉ sel → toggled (toggled sel x) x = sel).
Proof.
  intros Hocc.
  destruct (toggled_spec sel x) as [[Hx ->]|(l1 & l2 & -> & Hx & ->)].
  - assert (toggled (sel ++ [x]) x = sel) as ->; [|done].
    destruct (toggled_spec (sel ++ [x]) x) as [[Hx' _]|(l1 & l2 & Heq & Hx1 & ->)].
    + destruct Hx'. apply elem_of_app. right. by left.
    + destruct (app_singleton_first_split _ _ _ _ Hx Hx1 Heq) as [-> ->].
      by rewrite app_nil_r.
  - assert (x ∉ l2) as Hx2.
    { unfold occurrences in Hocc.
      rewrite filter_app, filter_cons_True, length_app in Hocc by done.
      cbn [length] in Hocc. intros Hin.
      assert (x ∈ filter (λ y, y = x) l2) as Hf by (by apply list_elem_of_filter).
      destruct (filter (λ y, y = x) l2); [by apply elem_of_nil in Hf|].
      cbn [length] in Hocc. lia. }
    split.
    + destruct (toggled_spec (l1 ++ l2) x) as [[_ ->]|(k1 & k2 & Heq & _ & _)].
      * rewrite <- app_assoc. apply Permutation_app_head.
        symmetry. apply Permutation_cons_append.
      * assert (x ∈ l1 ++ l2) as [?|?]%elem_of_app; [|done..].
        rewrite Heq. apply elem_of_app. right. by left.
    + intros Hnot. destruct Hnot. apply elem_of_app. right. by left.
Qed.

(** Toggling the same photo twice brings the photos back exactly and the
    selection back up to order, when the id is listed at most once in the
    selection; if the id was not selected the selection itself comes back. The
    two steps stay in history. *)
Theorem toggle_twice (now now' : Z) (s s1 s2 : AppState.t) (photoId : string) :
  (occurrences photoId (AppState.selectedPhotos s) ≤ 1)%nat →
  reducer now s (TOGGLE_SELECT_PHOTO photoId) = Some s1 →
  reducer now' s1 (TOGGLE_SELECT_PHOTO photoId) = Some s2 →
  AppState.photos s2 = AppState.photos s
  ∧ AppState.selectedPhotos s2 ≡ₚ AppState.selectedPhotos s
  ∧ (photoId ∉ AppState.selectedPhotos s →
     AppState.selectedPhotos s2 = AppState.selectedPhotos s)
  ∧ AppState.currentHistoryIndex s2 = AppState.currentHistoryIndex s + 2.
Proof.
  intros Hocc H1 H2. cbn [reducer] in H1, H2.
  injection H1 as <-. injection H2 as <-.
  cbn [commit AppState.photos AppState.selectedPhotos AppState.currentHistoryIndex].
  destruct (toggled_twice _ _ Hocc) as [Hperm Heq].
  split_and!; [|done|done|lia].
  rewrite <- list_fmap_compose. rewrite <- (list_fmap_id (AppState.photos s)) at 2.
  apply list_fmap_ext. intros i p _. unfold compose. cbn beta.
  destruct (decide (Photo.id p = photoId)) as [Hp|Hp].
  - rewrite (bool_decide_true (Photo.id p = photoId)) by done.
    cbn [Photo.with_selected Photo.id]. rewrite bool_decide_true by done.
    destruct p as [? ? ? sel ? ? ?]. cbn. by rewrite negb_involutive.
  - rewrite (bool_decide_false (Photo.id p = photoId)) by done.
    by rewrite bool_decide_false.
Qed.

(** *** Bulk selections *)

Lemma array_from_set_fresh (l acc : list string) :
  NoDup (acc ++ l) → fold_left set_push l acc = acc ++ l.
Proof.
  revert acc. induction l as [|x l IH]; intros acc Hnd; cbn [fold_left].
  - by rewrite app_nil_r.
  - assert (x ∉ acc) as Hx.
    { apply NoDup_app in Hnd as (_ & Hd & _). intros Hin. apply (Hd x Hin). by left. }
    unfold set_push at 2. apply includes_false in Hx as ->.
    rewrite IH; rewrite <- app_assoc; done.
Qed.

Lemma array_from_set_known (l acc : list string) :
  l ⊆ acc → fold_left set_push l acc = acc.
Proof.
  induction l as [|x l IH]; intros Hsub; cbn [fold_left]; [done|].
  assert (x ∈ acc) as Hx by (apply Hsub; by left).
  unfold set_push at 2. apply includes_spec in Hx as ->.
  apply IH. intros y Hy. apply Hsub. by right.
Qed.

Lemma array_from_set_absorb (l k : list string) :
  NoDup l → k ⊆ l → array_from_set (l ++ k) = l.
Proof.
  intros Hnd Hsub. unfold array_from_set. rewrite fold_left_app.
  rewrite (array_from_set_fresh l []) by done. cbn [app].
  by apply array_from_set_known.
Qed.

Lemma filter_length_eq {A} (P : A → Prop) `{!∀ x, Decision (P x)} (l : list A) :
  length (filter P l) = length l → filter P l = l.
Proof.
  induction l as [|x l IH]; [done|]. rewrite filter_cons.
  destruct (decide (P x)); cbn [length]; intros Hlen.
  - f_equal. apply IH. lia.
  - pose proof (length_filter P l). lia.
Qed.

Lemma forallb_includes (l k : list string) :
  forallb (includes l) k = true ↔ k ⊆ l.
Proof.
  rewrite forallb_forall. split.
  - intros H x Hx. apply includes_spec, H. by apply list_elem_of_In.
  - intros H x Hx. apply includes_spec, H. by apply list_elem_of_In.
Qed.

Lemma find_group_commit (now : Z) (s : AppState.t) (sel : list string)
    (photos : list Photo.t) (groupId : string) :
  find_group (commit now s sel photos) groupId = find_group s groupId.
Proof. done. Qed.

(** Each of the four bulk selection actions is idempotent: applied to its own
    result it returns that result unchanged, with no further history entry. *)
Theorem bulk_selection_idempotent (now now' : Z) (s s1 : AppState.t)
    (a : PhotoAction) :
  is_bulk_selection a →
  reducer now s a = Some s1 →
  reducer now' s1 a = Some s1.
Proof.
  intros Hbulk Hred. destruct a; try done; clear Hbulk.
  - (* SELECT_ALL_IN_GROUP *)
    cbn [reducer] in Hred. destruct (find_group s groupId) as [group|] eqn:Hfind.
    2:{ injection Hred as <-. cbn [reducer]. by rewrite Hfind. }
    destruct (_ && _) eqn:Htest.
    { injection Hred as <-. cbn [reducer]. by rewrite Hfind, Htest. }
    injection Hred as <-. cbn [reducer]. rewrite find_group_commit, Hfind.
    cbn [commit AppState.selectedPhotos].
    rewrite array_from_set_absorb.
    + rewrite bool_decide_true by done. cbn [andb].
      assert (forallb
        (includes (array_from_set (AppState.selectedPhotos s
                                   ++ (Photo.id <$> PhotoGroup.photos group))))
        (array_from_set (AppState.selectedPhotos s
                         ++ (Photo.id <$> PhotoGroup.photos group))) = true) as ->;
        [|done].
      by apply forallb_includes.
    + by apply array_from_set_NoDup, NoDup_nil_2.
    + intros x Hx. apply array_from_set_elem_of, elem_of_app. by right.
  - (* DESELECT_ALL_IN_GROUP *)
    cbn [reducer] in Hred. destruct (find_group s groupId) as [group|] eqn:Hfind.
    2:{ injection Hred as <-. cbn [reducer]. by rewrite Hfind. }
    destruct (bool_decide _) eqn:Htest.
    { injection Hred as <-. cbn [reducer]. by rewrite Hfind, Htest. }
    injection Hred as <-. cbn [reducer]. rewrite find_group_commit, Hfind.
    cbn [commit AppState.selectedPhotos].
    rewrite bool_decide_true; [done|]. f_equal.
    rewrite list_filter_filter. apply list_filter_iff. tauto.
  - (* SELECT_ALL *)
    cbn [reducer] in Hred. destruct (_ && _) eqn:Htest.
    { injection Hred as <-. cbn [reducer]. by rewrite Htest. }
    injection Hred as <-. cbn [reducer commit AppState.selectedPhotos AppState.photos].
    rewrite fmap_with_selected_ids.
    rewrite bool_decide_true by done. cbn [andb].
    assert (forallb (includes (Photo.id <$> AppState.photos s))
              (Photo.id <$> AppState.photos s) = true) as ->; [|done].
    by apply forallb_includes.
  - (* DESELECT_ALL *)
    cbn [reducer] in Hred. destruct (bool_decide _) eqn:Htest.
    { injection Hred as <-. cbn [reducer]. by rewrite Htest. }
    by injection Hred as <-.
Qed.

Lemma Forall_impl_in {A} (P Q : A → Prop) (l : list A) :
  Forall P l → (∀ x, x ∈ l → P x → Q x) → Forall Q l.
Proof. rewrite !Forall_forall. auto. Qed.

Lemma prefix_set_push (l acc : list string) : acc `prefix_of` fold_left set_push l acc.
Proof.
  revert acc. induction l as [|x l IH]; intros acc; cbn [fold_left]; [done|].
  trans (set_push acc x); [|apply IH]. unfold set_push.
  destruct (includes acc x); [done|]. by apply prefix_app_r.
Qed.

(** SELECT_ALL leaves every photo flagged and every photo id selected;
    DESELECT_ALL leaves the selection empty and no photo flagged. Both hold
    also when the action finds nothing to do and returns the state as it is,
    given that the flags agreed with the selection beforehand. *)
Theorem select_all_and_deselect_all (now : Z) (s s' : AppState.t) :
  selection_consistent s →
  (reducer now s SELECT_ALL = Some s' →
   Forall (λ p, Photo.selected p = true
                ∧ Photo.id p ∈ AppState.selectedPhotos s') (AppState.photos s'))
  ∧ (reducer now s DESELECT_ALL = Some s' →
     AppState.selectedPhotos s' = []
     ∧ Forall (λ p, Photo.selected p = false) (AppState.photos s')).
Proof.
  intros Hinv. unfold selection_consistent in Hinv. split; cbn [reducer].
  - destruct (_ && _) eqn:Htest; intros [= <-].
    + apply andb_true_iff in Htest as [_ Hall%forallb_includes].
      eapply Forall_impl_in; [exact Hinv|]. cbv beta. intros p Hp Hflag.
      assert (Photo.id p ∈ AppState.selectedPhotos s) as Hin.
      { apply Hall. by apply list_elem_of_fmap_2. }
      split; [|done]. rewrite Hflag. by apply includes_spec.
    + cbn [commit AppState.photos AppState.selectedPhotos].
      apply Forall_fmap, Forall_forall. intros p Hp. split; [done|].
      cbn [Photo.with_selected Photo.id]. by apply list_elem_of_fmap_2.
  - case_bool_decide as Hlen; intros [= <-].
    + apply length_zero_iff_nil in Hlen. split; [done|].
      eapply Forall_impl; [exact Hinv|]. intros p ->. rewrite Hlen.
      by apply includes_false, not_elem_of_nil.
    + cbn [commit AppState.photos AppState.selectedPhotos]. split; [done|].
      by apply Forall_fmap, Forall_true.
Qed.

(** For a group the store knows, SELECT_ALL_IN_GROUP selects exactly what was
    selected plus the ids of the group, keeping a duplicate-free selection in
    place as a prefix, and DESELECT_ALL_IN_GROUP keeps exactly the selected ids
    that are not ids of the group, in their order. *)
Theorem group_selection_effect (now : Z) (s s' : AppState.t) (groupId : string)
    (group : PhotoGroup.t) :
  find_group s groupId = Some group →
  (reducer now s (SELECT_ALL_IN_GROUP groupId) = Some s' →
   (∀ id, id ∈ AppState.selectedPhotos s'
          ↔ id ∈ AppState.selectedPhotos s ∨ id ∈ group_ids group)
   ∧ (NoDup (AppState.selectedPhotos s) →
      AppState.selectedPhotos s `prefix_of` AppState.selectedPhotos s'))
  ∧ (reducer now s (DESELECT_ALL_IN_GROUP groupId) = Some s' →
     AppState.selectedPhotos s'
     = filter (λ id, id ∉ group_ids group) (AppState.selectedPhotos s)).
Proof.
  intros Hfind. split; cbn [reducer]; rewrite Hfind.
  - destruct (_ && _) eqn:Htest; intros [= <-].
    + apply andb_true_iff in Htest as [Hlen Hall%forallb_includes].
      split; [|done]. intros id. split; [by left|].
      intros [?|Hid]; [done|]. apply Hall, array_from_set_elem_of, elem_of_app.
      by right.
    + cbn [commit AppState.selectedPhotos]. split.
      * intros id. by rewrite array_from_set_elem_of, elem_of_app.
      * intros Hnd. unfold array_from_set. rewrite fold_left_app.
        rewrite (array_from_set_fresh _ []) by done. apply prefix_set_push.
  - assert (Hfilter : ∀ l : list string,
      filter (λ id, ¬ includes (Photo.id <$> PhotoGroup.photos group) id) l
      = filter (λ id, id ∉ group_ids group) l).
    { intros l. apply list_filter_iff. intros id. unfold group_ids.
      destruct (includes _ id) eqn:Hi.
      - apply includes_spec in Hi. naive_solver.
      - apply includes_false in Hi. naive_solver. }
    case_bool_decide as Hlen; intros [= <-].
    + apply filter_length_eq in Hlen. by rewrite <- Hfilter, Hlen.
    + cbn [commit AppState.selectedPhotos]. apply Hfilter.
Qed.

(** *** Ingest *)

Lemma groupSimilarPhotos_nonempty (cos_sim : list Q → list Q → Q) (thr : Q)
    (photos : list Photo.t) :
  Forall (λ g, PhotoGroup.photos g ≠ []) (groupSimilarPhotos cos_sim thr photos).1.
Proof.
  apply groupSimilarPhotos_groups. intros photoA rest P cur m P' _ _ Hlen.
  unfold finalize_group. cbn [PhotoGroup.photos].
  intros Hnil%(f_equal length). rewrite js_sort_length in Hnil. simpl in Hnil. lia.
Qed.

Lemma best_ids_heads (groups : list PhotoGroup.t) (best : list string) :
  best_ids groups = Some best →
  length best = length groups
  ∧ Forall (λ g, ∃ top, head (PhotoGroup.photos g) = Some top ∧ Photo.id top ∈ best)
      groups.
Proof.
  unfold best_ids. intros Hall%mapM_Some.
  induction Hall as [|g y groups best Hy _ [IHl IH]]; [by split|].
  split; [simpl; lia|]. constructor.
  - destruct (head (PhotoGroup.photos g)) as [top|]; [|done].
    injection Hy as <-. exists top. split; [done|by left].
  - eapply Forall_impl; [exact IH|]. intros g' (top & ? & ?). exists top.
    split; [done|by right].
Qed.

(** Regrouping and dispatching a new photo always yields a state: the groups
    handed to the reducer are never empty, so reading the first photo of each
    cannot fail. The new state stores the photo last, stores the grouping of
    all photos, selects every unique photo and the first photo of every group,
    one id per unique photo and per group, and flags the photos accordingly. *)
Theorem ingest_always_succeeds (cos_sim : list Q → list Q → Q) (now : Z)
    (s : AppState.t) (photo : Photo.t) :
  ∃ s', addPhoto_dispatch cos_sim now s photo = Some s'
    ∧ (AppState.groups s', AppState.uniquePhotos s')
      = groupSimilarPhotos cos_sim (7 # 10) (AppState.photos s ++ [photo])
    ∧ Photo.id <$> AppState.photos s'
      = (Photo.id <$> AppState.photos s) ++ [Photo.id photo]
    ∧ selection_consistent s'
    ∧ Forall (λ u, Photo.id u ∈ AppState.selectedPhotos s') (AppState.uniquePhotos s')
    ∧ Forall (λ g, ∃ top, head (PhotoGroup.photos g) = Some top
                          ∧ Photo.id top ∈ AppState.selectedPhotos s')
        (AppState.groups s')
    ∧ length (AppState.selectedPhotos s')
      = (length (AppState.uniquePhotos s') + length (AppState.groups s'))%nat.
Proof.
  unfold addPhoto_dispatch.
  pose proof (groupSimilarPhotos_nonempty cos_sim (7 # 10)
                (AppState.photos s ++ [photo])) as Hne.
  destruct (groupSimilarPhotos _ _ _) as [groups uniquePhotos]. cbn [fst] in Hne.
  assert (is_Some (best_ids groups)) as [best Hbest].
  { apply mapM_is_Some. eapply Forall_impl; [exact Hne|].
    intros g Hg. unfold compose. cbn beta in Hg. revert Hg.
    destruct (PhotoGroup.photos g) as [|top ?]; [done|].
    intros _. by exists (Photo.id top). }
  destruct (best_ids_heads _ _ Hbest) as [Hlen Hheads].
  cbn [reducer]. rewrite Hbest. cbn [mbind option_bind].
  assert (Hpost : ∀ history idx,
    let s' := AppState.mk
      ((λ p, Photo.with_selected
               (includes ((Photo.id <$> uniquePhotos) ++ best) (Photo.id p)) p)
         <$> AppState.photos s ++ [photo])
      groups ((Photo.id <$> uniquePhotos) ++ best) uniquePhotos history idx in
    (AppState.groups s', AppState.uniquePhotos s') = (groups, uniquePhotos)
    ∧ Photo.id <$> AppState.photos s'
      = (Photo.id <$> AppState.photos s) ++ [Photo.id photo]
    ∧ selection_consistent s'
    ∧ Forall (λ u, Photo.id u ∈ AppState.selectedPhotos s') (AppState.uniquePhotos s')
    ∧ Forall (λ g, ∃ top, head (PhotoGroup.photos g) = Some top
                          ∧ Photo.id top ∈ AppState.selectedPhotos s')
        (AppState.groups s')
    ∧ length (AppState.selectedPhotos s')
      = (length (AppState.uniquePhotos s') + length (AppState.groups s'))%nat).
  { intros history idx s'. subst s'.
    cbn [AppState.groups AppState.uniquePhotos AppState.photos
         AppState.selectedPhotos]. unfold selection_consistent.
    cbn [AppState.photos AppState.selectedPhotos]. split_and!.
    - done.
    - by rewrite fmap_with_selected_ids, fmap_app.
    - by apply Forall_fmap, Forall_true.
    - apply Forall_forall. intros u Hu. apply elem_of_app. left.
      by apply list_elem_of_fmap_2.
    - eapply Forall_impl; [exact Hheads|]. intros g (top & ? & ?). exists top.
      split; [done|]. apply elem_of_app. by right.
    - by rewrite length_app, length_fmap, Hlen. }
  destruct (bool_decide _); eexists; (split; [reflexivity|apply Hpost]).
Qed.

Lemma best_ids_only_heads (groups : list PhotoGroup.t) (best : list string) :
  NoDup (concat (group_ids <$> groups)) →
  best_ids groups = Some best →
  Forall (λ g, ∃ top rest, PhotoGroup.photos g = top :: rest
                           ∧ Forall (λ q, Photo.id q ∉ best) rest) groups.
Proof.
  intros Hnd Hbest. revert Hnd. pose proof Hbest as Hall%mapM_Some.
  clear Hbest.
  induction Hall as [|g y groups best Hy Hall IH]; [constructor|].
  rewrite fmap_cons. cbn [concat]. intros (Hg & Hdisj & HG)%NoDup_app.
  assert (Hsub : best `sublist_of` concat (group_ids <$> groups)).
  { apply best_ids_sublist. by apply mapM_Some. }
  unfold group_ids in Hg, Hdisj.
  destruct (PhotoGroup.photos g) as [|top rest] eqn:Hphotos; [done|].
  injection Hy as <-. rewrite fmap_cons in Hg, Hdisj.
  apply NoDup_cons in Hg as [Htop Hrest].
  constructor.
  - exists top, rest. split; [done|]. apply Forall_forall. intros q Hq.
    intros [Heq|Hin]%elem_of_cons.
    + apply Htop. rewrite <- Heq. by apply list_elem_of_fmap_2.
    + apply (Hdisj (Photo.id q)).
      * right. by apply list_elem_of_fmap_2.
      * by eapply sublist_subseteq.
  - eapply Forall_impl_in; [exact (IH HG)|]. cbv beta.
    intros g' Hg' (top' & rest' & Hp' & Hall').
    exists top', rest'. split; [done|].
    eapply Forall_impl_in; [exact Hall'|]. cbv beta.
    intros q Hq Hnot [Heq|Hin]%elem_of_cons; [|done].
    apply (Hdisj (Photo.id top)); [by left|]. rewrite <- Heq.
    apply elem_of_concat. exists (group_ids g'). split.
    + by apply list_elem_of_fmap_2.
    + unfold group_ids. rewrite Hp'. right. by apply list_elem_of_fmap_2.
Qed.

(** When the stored ids and the new id are pairwise distinct, an ingest
    selects in every group the first photo and no other. *)
Theorem ingest_selects_only_best (cos_sim : list Q → list Q → Q) (now : Z)
    (s : AppState.t) (photo : Photo.t) (s' : AppState.t) :
  NoDup (Photo.id <$> AppState.photos s ++ [photo]) →
  addPhoto_dispatch cos_sim now s photo = Some s' →
  Forall (λ g, ∃ top rest,
            PhotoGroup.photos g = top :: rest
            ∧ Photo.id top ∈ AppState.selectedPhotos s'
            ∧ Forall (λ q, Photo.id q ∉ AppState.selectedPhotos s') rest)
    (AppState.groups s').
Proof.
  intros Hnd Hrun. unfold addPhoto_dispatch in Hrun.
  destruct (groupSimilarPhotos_placed cos_sim (7 # 10) _ Hnd) as [Hperm _].
  destruct (groupSimilarPhotos _ _ _) as [groups uniquePhotos].
  cbn [reducer] in Hrun.
  destruct (best_ids groups) as [best|] eqn:Hbest; [|done].
  cbn [mbind option_bind] in Hrun.
  rewrite <- Hperm in Hnd. unfold placed_ids in Hnd. cbn [fst snd] in Hnd.
  apply NoDup_app in Hnd as (HG & Hdisj & HU).
  pose proof (best_ids_only_heads _ _ HG Hbest) as Honly.
  destruct (best_ids_heads _ _ Hbest) as [_ Hheads].
  assert (Hgoal : Forall (λ g, ∃ top rest,
            PhotoGroup.photos g = top :: rest
            ∧ Photo.id top ∈ (Photo.id <$> uniquePhotos) ++ best
            ∧ Forall (λ q, Photo.id q ∉ (Photo.id <$> uniquePhotos) ++ best) rest)
    groups).
  { apply Forall_forall. intros g Hg.
    apply (proj1 (Forall_forall _ _) Honly) in Hg as Hg1.
    apply (proj1 (Forall_forall _ _) Hheads) in Hg as Hg2.
    destruct Hg1 as (top & rest & Hp & Hrest). destruct Hg2 as (top' & Htop' & Hin).
    rewrite Hp in Htop'. injection Htop' as <-.
    exists top, rest. split_and!; [done|apply elem_of_app; by right|].
    eapply Forall_impl_in; [exact Hrest|]. cbv beta.
    intros q Hq Hnot [HinU|?]%elem_of_app; [|done].
    apply (Hdisj (Photo.id q)); [|done].
    apply elem_of_concat. exists (group_ids g). split.
    - by apply list_elem_of_fmap_2.
    - unfold group_ids. rewrite Hp. right. by apply list_elem_of_fmap_2. }
  by destruct (bool_decide _); injection Hrun as <-.
Qed.

(** *** Runs of the store *)

(** In a state of the store no action throws, as long as an ingest is not
    handed an empty group: the lookups of UNDO and REDO stay inside the
    history. *)
Theorem store_never_throws (now : Z) (s : AppState.t) (a : PhotoAction) :
  reachable s →
  (∀ photo groups uniquePhotos,
     a = ADD_PHOTO_AND_UPDATE_GROUPS photo groups uniquePhotos →
     Forall (λ g, PhotoGroup.photos g ≠ []) groups) →
  ∃ s', reducer now s a = Some s' ∧ reachable s'.
Proof.
  intros Hs Hgroups.
  destruct (reducer_defined now s a) as [s' Hred];
    [by apply reachable_history_wf|done|].
  exists s'. split; [done|]. by eapply reachable_step.
Qed.

Lemma ids_of_erased (l1 l2 : list Photo.t) :
  Photo.with_selected false <$> l1 = Photo.with_selected false <$> l2 →
  Photo.id <$> l1 = Photo.id <$> l2.
Proof.
  intros Heq%(f_equal (fmap Photo.id)).
  by rewrite <- !list_fmap_compose in Heq.
Qed.

Section PipelineMore.
Variable cos_sim : list Q → list Q → Q.

Lemma pipeline_is_reachable (s : AppState.t) :
  pipeline_reachable cos_sim s → reachable s.
Proof.
  induction 1 as [|now s photo s' _ IH _ Hrun|now s a s' _ IH _ Hred].
  - constructor.
  - unfold addPhoto_dispatch in Hrun.
    destruct (groupSimilarPhotos _ _ _) as [groups uniquePhotos].
    by eapply reachable_step.
  - by eapply reachable_step.
Qed.

Lemma pipeline_partition (s : AppState.t) :
  pipeline_reachable cos_sim s →
  placed_ids (AppState.groups s, AppState.uniquePhotos s)
  ≡ₚ Photo.id <$> AppState.photos s.
Proof.
  induction 1 as [|now s photo s' Hs IH Hfresh Hrun|now s a s' Hs IH Hsel Hred].
  - done.
  - apply pipeline_ids_distinct in Hs as (Hp & _ & _).
    assert (Hnd : NoDup (Photo.id <$> AppState.photos s ++ [photo])).
    { rewrite fmap_app. apply NoDup_app. split_and!; [done| |apply NoDup_singleton].
      intros y Hy ->%list_elem_of_singleton. done. }
    unfold addPhoto_dispatch in Hrun.
    destruct (groupSimilarPhotos_placed cos_sim (7 # 10) _ Hnd) as [Hperm _].
    destruct (groupSimilarPhotos _ _ _) as [groups uniquePhotos].
    apply reducer_frame in Hrun as (Hphotos%ids_of_erased & -> & ->).
    by rewrite Hphotos.
  - apply reducer_frame in Hred.
    assert (Photo.id <$> AppState.photos s' = Photo.id <$> AppState.photos s
            ∧ AppState.groups s' = AppState.groups s
            ∧ AppState.uniquePhotos s' = AppState.uniquePhotos s) as (-> & -> & ->);
      [|done].
    destruct a; try (destruct Hred as (?%ids_of_erased & ? & ?); done).
    by destruct (Hsel photo groups uniquePhotos).
Qed.

(** In every state reached by ingests of fresh ids through the grouper and by
    selection commands: photo ids, selected ids and the ids of every history
    entry are free of repetitions; each photo's flag agrees with the
    selection; the index points into the history; and the stored groups and
    unique photos hold every stored id exactly once. *)
Theorem pipeline_invariants (s : AppState.t) :
  pipeline_reachable cos_sim s →
  ids_distinct s
  ∧ selection_consistent s
  ∧ history_wf s
  ∧ placed_ids (AppState.groups s, AppState.uniquePhotos s)
    ≡ₚ Photo.id <$> AppState.photos s.
Proof.
  intros Hs. split_and!.
  - by apply (pipeline_ids_distinct cos_sim).
  - by apply (pipeline_selection_consistent cos_sim).
  - by apply reachable_history_wf, pipeline_is_reachable.
  - by apply pipeline_partition.
Qed.
End PipelineMore.

(** *** Download *)

Lemma find_by_id_Some (photos : list Photo.t) (photoId : string) (p : Photo.t) :
  List.find (λ p, bool_decide (Photo.id p = photoId)) photos = Some p →
  p ∈ photos ∧ Photo.id p = photoId.
Proof.
  intros [Hin Hid]%find_some. split; [by apply list_elem_of_In|].
  by apply bool_decide_eq_true in Hid.
Qed.

Lemma find_by_id_NoDup (photos : list Photo.t) (p : Photo.t) :
  NoDup (Photo.id <$> photos) → p ∈ photos →
  List.find (λ q, bool_decide (Photo.id q = Photo.id p)) photos = Some p.
Proof.
  induction photos as [|q photos IH]; [by intros _ ?%elem_of_nil|].
  rewrite fmap_cons. intros [Hq Hnd]%NoDup_cons [->|Hin]%elem_of_cons;
    cbn [List.find].
  - by rewrite bool_decide_true.
  - rewrite bool_decide_false; [by apply IH|].
    intros Heq. apply Hq. rewrite Heq. by apply list_elem_of_fmap_2.
Qed.

Lemma downloadSelected_elem_of (s : AppState.t) (p : Photo.t) :
  NoDup (Photo.id <$> AppState.photos s) →
  p ∈ downloadSelected s
  ↔ p ∈ AppState.photos s ∧ Photo.id p ∈ AppState.selectedPhotos s.
Proof.
  intros Hnd. unfold downloadSelected. rewrite list_elem_of_omap. split.
  - intros (photoId & Hsel & (Hin & <-)%find_by_id_Some). done.
  - intros [Hin Hsel]. exists (Photo.id p). split; [done|].
    by apply find_by_id_NoDup.
Qed.

Lemma downloadSelected_NoDup (photos : list Photo.t) (sel : list string) :
  NoDup sel →
  NoDup (omap (λ photoId,
                 List.find (λ p, bool_decide (Photo.id p = photoId)) photos) sel).
Proof.
  induction 1 as [|x sel Hx Hsel IH]; cbn [omap list_omap]; [constructor|].
  destruct (List.find _ photos) as [p|] eqn:Hfind; [|done].
  apply NoDup_cons. split; [|done].
  intros (y & Hy & (_ & Hid)%find_by_id_Some)%list_elem_of_omap.
  apply find_by_id_Some in Hfind as [_ Hid']. congruence.
Qed.

(** When no two photos share an id, no id is selected twice and the flags
    agree with the selection, the download hands out exactly the photos
    flagged as selected, each once; ids in the selection that no photo
    carries are passed over. The files go out in the order of the
    selection. *)
Theorem download_is_the_flagged_photos (s : AppState.t) :
  NoDup (Photo.id <$> AppState.photos s) → NoDup (AppState.selectedPhotos s) →
  selection_consistent s →
  downloadSelected s ≡ₚ filter (λ p, Photo.selected p = true) (AppState.photos s)
  ∧ Photo.id <$> downloadSelected s `sublist_of` AppState.selectedPhotos s.
Proof.
  intros Hp Hsel Hinv. split.
  - apply NoDup_Permutation.
    + by apply downloadSelected_NoDup.
    + apply NoDup_filter. by eapply NoDup_fmap_1.
    + intros p. rewrite downloadSelected_elem_of, list_elem_of_filter by done.
      split.
      * intros [Hin Hid]. split; [|done].
        rewrite (proj1 (Forall_forall _ _) Hinv p Hin). by apply includes_spec.
      * intros [Hflag Hin]. split; [done|].
        rewrite (proj1 (Forall_forall _ _) Hinv p Hin) in Hflag.
        by apply includes_spec.
  - unfold downloadSelected. clear.
    induction (AppState.selectedPhotos s) as [|x sel IH];
      cbn [omap list_omap]; [done|].
    destruct (List.find _ _) as [p|] eqn:Hfind.
    + apply find_by_id_Some in Hfind as [_ <-]. rewrite fmap_cons.
      by apply sublist_skip.
    + by apply sublist_cons.
Qed.

(** ** Concrete runs of the further properties *)

Lemma state_pair_ingested :
  addPhoto_dispatch sim0 1 state_one photoB0 = Some state_pair.
Proof. by vm_compute. Qed.

Lemma no_similar_pair_no_group_witness :
  (groupSimilarPhotos sim0 (7 # 10) [photoA0; photoC0]).1 = []
  ∧ (groupSimilarPhotos sim0 (7 # 10) [photoA0; photoC0]).2 ≡ₚ [photoA0; photoC0].
Proof.
  apply (no_similar_pair_no_group sim0 (7 # 10) [photoA0; photoC0]).
  - apply (bool_decide_unpack _). by vm_compute.
  - intros photoA photoB s HA HB Hne Hs.
    apply elem_of_cons in HA as [->|HA%list_elem_of_singleton];
      apply elem_of_cons in HB as [->|HB%list_elem_of_singleton];
      subst; try done; vm_compute in Hs; injection Hs as <-; by vm_compute.
Defined.

Lemma group_date_is_capture_date_without_exif_witness :
  Forall group_date_is_capture_date
    (groupSimilarPhotos sim0 (7 # 10) [photoA0; photoB0; photoC0]).1.
Proof.
  apply (group_date_is_capture_date_without_exif sim0 (7 # 10)
           [photoA0; photoB0; photoC0]).
  by repeat constructor.
Defined.

Lemma similar_pair_not_both_unique_witness :
  (in_some_group (groupSimilarPhotos sim0 (7 # 10) [photoA0; photoB0; photoC0]).1
     photoA0
   ∨ in_some_group (groupSimilarPhotos sim0 (7 # 10) [photoA0; photoB0; photoC0]).1
       photoB0)
  ∧ ¬ (photoA0 ∈ (groupSimilarPhotos sim0 (7 # 10) [photoA0; photoB0; photoC0]).2
       ∧ photoB0 ∈ (groupSimilarPhotos sim0 (7 # 10) [photoA0; photoB0; photoC0]).2).
Proof.
  apply (similar_pair_not_both_unique sim0 (7 # 10) [photoA0; photoB0; photoC0]
           [] [photoB0; photoC0] photoA0 photoB0).
  - apply (bool_decide_unpack _). by vm_compute.
  - reflexivity.
  - by left.
  - by vm_compute.
  - by vm_compute.
  - exists (8 # 10)%Q. split; [reflexivity|by vm_compute].
Defined.

Lemma group_ids_distinct_witness :
  Forall group_id_of_top
    (groupSimilarPhotos sim0 (7 # 10) [photoA0; photoB0; photoC0]).1
  ∧ NoDup (PhotoGroup.id
           <$> (groupSimilarPhotos sim0 (7 # 10) [photoA0; photoB0; photoC0]).1).
Proof.
  apply (group_ids_distinct sim0 (7 # 10) [photoA0; photoB0; photoC0]).
  apply (bool_decide_unpack _). by vm_compute.
Defined.


Lemma photos_only_change_flags_witness :
  Photo.with_selected false <$> AppState.photos state_cleared
  = Photo.with_selected false <$> AppState.photos state_one
  ∧ AppState.groups state_cleared = AppState.groups state_one
  ∧ AppState.uniquePhotos state_cleared = AppState.uniquePhotos state_one.
Proof.
  apply (photos_only_change_flags 1 state_one (TOGGLE_SELECT_PHOTO "C") state_cleared).
  reflexivity.
Defined.

Lemma current_entry_holds_selection_witness :
  state_cleared = initialState
  ∨ (0 ≤ AppState.currentHistoryIndex state_cleared
     ∧ ∃ e, js_index (AppState.history state_cleared)
              (AppState.currentHistoryIndex state_cleared) = Some e
            ∧ HistoryEntry.selectedPhotos e = AppState.selectedPhotos state_cleared).
Proof.
  apply (current_entry_holds_selection state_cleared).
  apply (reachable_step 1 state_one (TOGGLE_SELECT_PHOTO "C")); [|reflexivity].
  apply (reachable_step 0 initialState
           (ADD_PHOTO_AND_UPDATE_GROUPS photoC0 [] [photoC0]));
    [apply reachable_init|reflexivity].
Defined.

Lemma new_action_discards_redo_witness :
  reducer 2 state_cleared REDO = Some state_cleared.
Proof.
  apply (new_action_discards_redo 1 2 state_one (TOGGLE_SELECT_PHOTO "C")
           state_cleared).
  - unfold history_wf. simpl. lia.
  - reflexivity.
  - simpl. discriminate.
Defined.

Lemma undo_redo_inverse_witness :
  ∃ s1, reducer 2 state_cleared UNDO = Some s1
        ∧ reducer 3 s1 REDO = Some state_cleared.
Proof.
  destruct (undo_redo_inverse 2 3 state_cleared) as [Hundo _].
  - apply (reachable_step 1 state_one (TOGGLE_SELECT_PHOTO "C")); [|reflexivity].
    apply (reachable_step 0 initialState
             (ADD_PHOTO_AND_UPDATE_GROUPS photoC0 [] [photoC0]));
      [apply reachable_init|reflexivity].
  - by repeat constructor.
  - apply Hundo. simpl. lia.
Defined.

Lemma toggle_twice_witness :
  AppState.photos (commit 2 state_cleared ["C"] [Photo.with_selected true photoC0])
  = AppState.photos state_one
  ∧ AppState.selectedPhotos
      (commit 2 state_cleared ["C"] [Photo.with_selected true photoC0])
    ≡ₚ AppState.selectedPhotos state_one.
Proof.
  destruct (toggle_twice 1 2 state_one state_cleared
              (commit 2 state_cleared ["C"] [Photo.with_selected true photoC0]) "C")
    as (Hphotos & Hsel & _).
  - vm_compute. lia.
  - reflexivity.
  - reflexivity.
  - by split.
Defined.

Lemma bulk_selection_idempotent_witness :
  reducer 2 state_cleared DESELECT_ALL = Some state_cleared.
Proof.
  apply (bulk_selection_idempotent 1 2 state_one state_cleared DESELECT_ALL).
  - exact I.
  - reflexivity.
Defined.

Lemma select_all_and_deselect_all_witness :
  AppState.selectedPhotos state_cleared = []
  ∧ Forall (λ p, Photo.selected p = false) (AppState.photos state_cleared).
Proof.
  destruct (select_all_and_deselect_all 1 state_one state_cleared) as [_ Hclear].
  - by repeat constructor.
  - apply Hclear. reflexivity.
Defined.

Lemma group_selection_effect_witness :
  ("B" ∈ ["C"; "B"] ↔ "B" ∈ ["C"] ∨ "B" ∈ group_ids group_pair)
  ∧ [] = filter (λ id, id ∉ group_ids group_pair) ["C"].
Proof.
  split.
  - destruct (group_selection_effect 2 state_pair
                (commit 2 state_pair ["C"; "B"]
                   [Photo.with_selected true photoC0;
                    Photo.with_selected true photoB0])
                "C-group" group_pair) as [Hselect _]; [reflexivity|].
    destruct Hselect as [Hids _]; [reflexivity|]. exact (Hids "B").
  - destruct (group_selection_effect 2 state_pair
                (commit 2 state_pair []
                   [Photo.with_selected false photoC0; photoB0])
                "C-group" group_pair) as [_ Hdeselect]; [reflexivity|].
    apply Hdeselect. reflexivity.
Defined.

Lemma ingest_selects_only_best_witness :
  Forall (λ g, ∃ top rest,
            PhotoGroup.photos g = top :: rest
            ∧ Photo.id top ∈ AppState.selectedPhotos state_pair
            ∧ Forall (λ q, Photo.id q ∉ AppState.selectedPhotos state_pair) rest)
    (AppState.groups state_pair).
Proof.
  apply (ingest_selects_only_best sim0 1 state_one photoB0 state_pair).
  - apply (bool_decide_unpack _). by vm_compute.
  - by vm_compute.
Defined.

Lemma store_never_throws_witness :
  ∃ s', reducer 2 state_cleared UNDO = Some s' ∧ reachable s'.
Proof.
  apply (store_never_throws 2 state_cleared UNDO).
  - apply (reachable_step 1 state_one (TOGGLE_SELECT_PHOTO "C")); [|reflexivity].
    apply (reachable_step 0 initialState
             (ADD_PHOTO_AND_UPDATE_GROUPS photoC0 [] [photoC0]));
      [apply reachable_init|reflexivity].
  - intros photo groups uniquePhotos Ha. discriminate Ha.
Defined.

Lemma pipeline_invariants_witness :
  ids_distinct state_one
  ∧ selection_consistent state_one
  ∧ history_wf state_one
  ∧ placed_ids (AppState.groups state_one, AppState.uniquePhotos state_one)
    ≡ₚ Photo.id <$> AppState.photos state_one.
Proof.
  apply (pipeline_invariants sim0 state_one).
  apply (pipeline_ingest sim0 0 initialState photoC0);
    [apply pipeline_init|apply not_elem_of_nil|by vm_compute].
Defined.

Lemma download_is_the_flagged_photos_witness :
  downloadSelected state_one
  ≡ₚ filter (λ p, Photo.selected p = true) (AppState.photos state_one)
  ∧ Photo.id <$> downloadSelected state_one
    `sublist_of` AppState.selectedPhotos state_one.
Proof.
  apply (download_is_the_flagged_photos state_one).
  - apply (bool_decide_unpack _). by vm_compute.
  - apply (bool_decide_unpack _). by vm_compute.
  - by repeat constructor.
Defined.
